(** * Verification of the job-scheduling service

    Part one ([Module Backend]) is a shallow embedding of [src/backend.py]:
    the route [schedule_jobs], with the collaborators it calls (the
    [jsonschema] validator, the two schema files and the [algorithms]
    module) taken as section variables.  Every call the route makes to a
    collaborator, and every line it prints, is recorded in a trace, so that
    statements about which algorithm runs, and when, can be made.

    Part two ([Module Engine]) models the scheduling engine itself from its
    written specification, since the [algorithms] module is not part of the
    sources at hand. *)

From Stdlib Require Import ZArith Lia.
From stdpp Require Import base option list strings gmap relations sorting.

#[local] Set Warnings "-register-all".

Local Open Scope string_scope.
Local Open Scope list_scope.
Local Open Scope Z_scope.

Module Backend.

(** ** Values *)

(** The values that travel through the route are those of a decoded JSON
    document.  Python's [None] is the decoding of JSON [null], and it is also
    what [dict.get] answers for an absent key. *)
Inductive json : Type :=
| JNull
| JBool (b : bool)
| JNum (n : Z)
| JStr (s : string)
| JArr (items : list json)
| JObj (members : list (string * json)).

(** A Python [dict] with string keys, in insertion order. *)
Abbreviation dict := (list (string * json)).

Fixpoint dict_lookup (d : dict) (k : string) : option json :=
  match d with
  | [] => None
  | (k', v) :: d' => if String.eqb k k' then Some v else dict_lookup d' k
  end.

(** [d.get(k)]: the value bound to [k], or [None]. *)
Definition dict_get (d : dict) (k : string) : json :=
  default JNull (dict_lookup d k).

Definition dict_keys (d : dict) : list string := d.*1.

Definition dict_values (d : dict) : list json := d.*2.

(** ** The route and its collaborators *)

Section route.

(** What [jsonschema.exceptions.ValidationError] carries. *)
Variable VErr : Type.
(** Whatever an algorithm of the [algorithms] module may raise. *)
Variable Exc : Type.
(** A loaded JSON schema, and the two schemas read at import time. *)
Variable schema : Type.
Variable input_schema output_schema : schema.
(** [jsonschema.validate(instance, schema)]: [None] when it returns,
    [Some err] when it raises [ValidationError].  The two schemas are
    fixed files, taken to be well-formed schemas, so the validator raises
    nothing else. *)
Variable validate : json → schema → option VErr.
(** The module [algorithms]: [alg name args] is the outcome of the call
    [alg.name( *args )], a returned value or a raised exception. *)
Variable alg : string → list json → Exc + json.

Inductive printable : Type :=
| PStr (s : string)
| PDumps (v : json)
| PErr (err : VErr).

Inductive event : Type :=
| EvPrint (args : list printable)
| EvValidate (instance : json) (against : schema)
| EvCall (name : string) (args : list json).

Inductive exn : Type :=
| ValidationError (err : VErr)
| HTTPException (status_code : Z) (detail : string)
| AlgException (e : Exc).

(** A computation yields the trace of what it did and either the exception
    that ended it or its value. *)
Definition M (A : Type) : Type := list event * (exn + A).

#[local] Instance M_ret : MRet M := λ A a, ([], inr a).

#[local] Instance M_bind : MBind M := λ A B f m,
  match m with
  | (t, inl e) => (t, inl e)
  | (t, inr a) => let '(t', r) := f a in (t ++ t', r)
  end.

Definition raise {A : Type} (e : exn) : M A := ([], inl e).

Definition emit (ev : event) : M unit := ([ev], inr tt).

(** [try: body / except ValidationError as err: handler(err)]. *)
Definition try_except {A : Type} (body : M A) (handler : VErr → M A) : M A :=
  match body with
  | (t, inl (ValidationError err)) => let '(t', r) := handler err in (t ++ t', r)
  | other => other
  end.

Definition print (args : list printable) : M unit := emit (EvPrint args).

Definition do_validate (instance : json) (s : schema) : M unit :=
  emit (EvValidate instance s);;
  match validate instance s with
  | None => mret tt
  | Some err => raise (ValidationError err)
  end.

Definition call (name : string) (args : list json) : M json :=
  emit (EvCall name args);;
  match alg name args with
  | inl e => raise (AlgException e)
  | inr v => mret v
  end.

(** [for key, value in d.items(): body(key, value)]. *)
Fixpoint for_items (d : dict) (body : string → json → M unit) : M unit :=
  match d with
  | [] => mret tt
  | (key, value) :: d' => body key value;; for_items d' body
  end.

Definition schedule_jobs (data : dict) : M dict :=
  print [PStr "Received JSON data:"; PDumps (JObj data)];;
  try_except
    (do_validate (JObj data) input_schema;;
     print [PStr "Input data is valid."])
    (λ err,
     print [PStr "Input data is invalid:"; PErr err];;
     raise (HTTPException 400 "Invalid Input schema"));;
  let application_data := dict_get data "application" in
  let platform_data := dict_get data "platform" in
  ldf_single_node ← call "ldf_single_node" [application_data];
  edfsingle_node ← call "edf_single_node" [application_data];
  edf_multinode_no_delay ←
    call "edf_multinode_no_delay" [application_data; platform_data];
  ldf_multinode_no_delay ←
    call "ldf_multinode_no_delay" [application_data; platform_data];
  ll_multinode_no_delay ←
    call "ll_multinode_no_delay" [application_data; platform_data];
  let response : dict :=
    [ ("edfsingle_node", edfsingle_node);
      ("ldf_single_node", ldf_single_node);
      ("edf_multinode_no_delay", edf_multinode_no_delay);
      ("ldf_multinode_no_delay", ldf_multinode_no_delay);
      ("ll_multinode_no_delay", ll_multinode_no_delay) ] in
  try_except
    (for_items response (λ key value,
       do_validate value output_schema;;
       print [PStr key; PStr "Schedule is valid"]))
    (λ err,
     print [PStr "Output data is not valid"; PErr err];;
     raise (HTTPException 500 "Invalid Output Schema"));;
  print [PDumps (JObj response)];;
  mret response.

(** Whether [needle] occurs somewhere in [s]. *)
Fixpoint contains (needle s : string) : bool :=
  String.prefix needle s ||
  match s with
  | EmptyString => false
  | String _ s' => contains needle s'
  end.

(** The calls into [algorithms] that a trace records, in order. *)
Definition calls (t : list event) : list (string * list json) :=
  omap (λ ev, match ev with EvCall name args => Some (name, args) | _ => None end) t.

(** The calls a complete run makes, in the order it makes them. *)
Definition expected_calls (application_data platform_data : json)
  : list (string * list json) :=
  [ ("ldf_single_node", [application_data]);
    ("edf_single_node", [application_data]);
    ("edf_multinode_no_delay", [application_data; platform_data]);
    ("ldf_multinode_no_delay", [application_data; platform_data]);
    ("ll_multinode_no_delay", [application_data; platform_data]) ].

(** The keys of the response, in insertion order. *)
Definition response_keys : list string :=
  [ "edfsingle_node"; "ldf_single_node"; "edf_multinode_no_delay";
    "ldf_multinode_no_delay"; "ll_multinode_no_delay" ].

(** [key] is bound in [response] to the value that [outcome] returned. *)
Definition bound_to (response : dict) (key : string) (outcome : Exc + json) : Prop :=
  ∃ v, outcome = inr v ∧ dict_lookup response key = Some v.

(** The validations a trace records, in order. *)
Definition validations (t : list event) : list (json * schema) :=
  omap (λ ev, match ev with EvValidate v s => Some (v, s) | _ => None end) t.

(** Everything a run does when nothing goes wrong, for the input [data]
    and the response [response]. *)
Definition success_trace (data response : dict) : list event :=
  [ EvPrint [PStr "Received JSON data:"; PDumps (JObj data)];
    EvValidate (JObj data) input_schema;
    EvPrint [PStr "Input data is valid."] ]
  ++ ((λ c, EvCall c.1 c.2)
        <$> expected_calls (dict_get data "application") (dict_get data "platform"))
  ++ (response ≫= λ kv,
        [ EvValidate kv.2 output_schema;
          EvPrint [PStr kv.1; PStr "Schedule is valid"] ])
  ++ [ EvPrint [PDumps (JObj response)] ].

(** The schedules in the order in which the route validates them. *)
Definition validation_order (r_ldf r_edf r_edfm r_ldfm r_llm : json) : list json :=
  [r_edf; r_ldf; r_edfm; r_ldfm; r_llm].

(** The schedules that get validated: all of them up to the first that the
    output schema rejects, that one included. *)
Definition validated_schedules (schedules : list json) : list json :=
  match list_find (λ v, is_Some (validate v output_schema)) schedules with
  | Some (i, _) => take (S i) schedules
  | None => schedules
  end.

(** ** Facts about the route *)

(** One case per collaborator call, in program order: the input validation,
    the five algorithms, the five output validations. *)
Ltac case_alg name :=
  try match goal with
      | |- context [alg name ?args] =>
          let H := fresh "Hcall" in
          destruct (alg name args) as [?e|?r] eqn:H; cbn
      end.

Ltac case_output name :=
  try match goal with
      | H : alg name _ = inr ?v |- context [validate ?v output_schema] =>
          let H := fresh "Hout" in
          destruct (validate v output_schema) as [?err|] eqn:H; cbn
      end.

Ltac run_route data :=
  unfold schedule_jobs; cbn;
  destruct (validate (JObj data) input_schema) as [?err|] eqn:?Hin; cbn;
  case_alg "ldf_single_node"; case_alg "edf_single_node";
  case_alg "edf_multinode_no_delay"; case_alg "ldf_multinode_no_delay";
  case_alg "ll_multinode_no_delay";
  case_output "edf_single_node"; case_output "ldf_single_node";
  case_output "edf_multinode_no_delay"; case_output "ldf_multinode_no_delay";
  case_output "ll_multinode_no_delay".

(** A run that returns has had all five algorithms return, and its
    response holds their values under the five keys. *)
Lemma schedule_jobs_returns (data : dict) t response :
  schedule_jobs data = (t, inr response) →
  let application_data := dict_get data "application" in
  let platform_data := dict_get data "platform" in
  ∃ r_ldf r_edf r_edfm r_ldfm r_llm,
    alg "ldf_single_node" [application_data] = inr r_ldf
    ∧ alg "edf_single_node" [application_data] = inr r_edf
    ∧ alg "edf_multinode_no_delay" [application_data; platform_data] = inr r_edfm
    ∧ alg "ldf_multinode_no_delay" [application_data; platform_data] = inr r_ldfm
    ∧ alg "ll_multinode_no_delay" [application_data; platform_data] = inr r_llm
    ∧ response =
        [ ("edfsingle_node", r_edf); ("ldf_single_node", r_ldf);
          ("edf_multinode_no_delay", r_edfm); ("ldf_multinode_no_delay", r_ldfm);
          ("ll_multinode_no_delay", r_llm) ].
Proof.
  revert t response. run_route data; intros t response Hrun;
    try discriminate Hrun.
  injection Hrun as <- <-. eexists _, _, _, _, _. repeat split; done.
Qed.

(** C1 (as amended).  Whenever the route returns, the response has exactly
    the five keys [edfsingle_node], [ldf_single_node],
    [edf_multinode_no_delay], [ldf_multinode_no_delay] and
    [ll_multinode_no_delay]; the first is bound to what
    [alg.edf_single_node] returned and each of the others to what the
    algorithm of the same name returned. *)
Theorem response_has_the_five_keys (data : dict) t response :
  schedule_jobs data = (t, inr response) →
  let application_data := dict_get data "application" in
  let platform_data := dict_get data "platform" in
  dict_keys response = response_keys
  ∧ bound_to response "edfsingle_node" (alg "edf_single_node" [application_data])
  ∧ bound_to response "ldf_single_node" (alg "ldf_single_node" [application_data])
  ∧ bound_to response "edf_multinode_no_delay"
      (alg "edf_multinode_no_delay" [application_data; platform_data])
  ∧ bound_to response "ldf_multinode_no_delay"
      (alg "ldf_multinode_no_delay" [application_data; platform_data])
  ∧ bound_to response "ll_multinode_no_delay"
      (alg "ll_multinode_no_delay" [application_data; platform_data]).
Proof.
  unfold bound_to. revert t response. run_route data; intros t response Hrun;
    try discriminate Hrun.
  injection Hrun as <- <-. cbn.
  repeat split; eauto.
Qed.

(** C2.  The calls the route makes into [algorithms] are an initial segment
    of the five non-RMS calls, so no RMS function is ever among them; a run
    that returns a response has made exactly those five calls, and no key of
    its response names an RMS schedule. *)
Theorem schedule_jobs_never_runs_rms (data : dict) :
  let application_data := dict_get data "application" in
  let platform_data := dict_get data "platform" in
  calls (schedule_jobs data).1 `prefix_of` expected_calls application_data platform_data
  ∧ Forall (λ c, contains "rms" c.1 = false) (calls (schedule_jobs data).1)
  ∧ ∀ response, (schedule_jobs data).2 = inr response →
      calls (schedule_jobs data).1 = expected_calls application_data platform_data
      ∧ Forall (λ key, contains "rms" key = false) (dict_keys response).
Proof.
  cbn zeta. unfold expected_calls.
  run_route data; (split; [| split; [| intros response Hret; try discriminate Hret]]);
    try (repeat constructor; done);
    try (eexists; cbn; reflexivity).
  injection Hret as <-. split; [done | repeat constructor].
Qed.

(** C3.  An input that the input schema rejects ends the route with
    [HTTPException(400, "Invalid Input schema")]; all it has done by then is
    print the input, run the validator and print the error, so no algorithm
    has been called and no response exists. *)
Theorem invalid_input_is_rejected_first (data : dict) err :
  validate (JObj data) input_schema = Some err →
  schedule_jobs data =
    ( [ EvPrint [PStr "Received JSON data:"; PDumps (JObj data)];
        EvValidate (JObj data) input_schema;
        EvPrint [PStr "Input data is invalid:"; PErr err] ],
      inl (HTTPException 400 "Invalid Input schema") )
  ∧ calls (schedule_jobs data).1 = [].
Proof.
  intros Hbad. unfold schedule_jobs. cbn. rewrite Hbad. cbn. done.
Qed.

(** C5.  Whenever the route returns, the values of the response are, in
    order, the very values the five algorithm calls returned: nothing is
    transformed on the way out. *)
Theorem response_values_are_untouched (data : dict) t response :
  schedule_jobs data = (t, inr response) →
  let application_data := dict_get data "application" in
  let platform_data := dict_get data "platform" in
  (inr <$> dict_values response : list (Exc + json)) =
    [ alg "edf_single_node" [application_data];
      alg "ldf_single_node" [application_data];
      alg "edf_multinode_no_delay" [application_data; platform_data];
      alg "ldf_multinode_no_delay" [application_data; platform_data];
      alg "ll_multinode_no_delay" [application_data; platform_data] ].
Proof.
  revert t response. run_route data; intros t response Hrun;
    try discriminate Hrun.
  by injection Hrun as <- <-.
Qed.

(** C9.  When the input is valid and all five algorithms return, one
    schedule that the output schema rejects is enough for the route to end
    with [HTTPException(500, "Invalid Output Schema")]: no response is
    returned, whatever the other four schedules are. *)
Theorem invalid_output_is_an_http_500 (data : dict)
    (r_ldf r_edf r_edfm r_ldfm r_llm : json) :
  let application_data := dict_get data "application" in
  let platform_data := dict_get data "platform" in
  validate (JObj data) input_schema = None →
  alg "ldf_single_node" [application_data] = inr r_ldf →
  alg "edf_single_node" [application_data] = inr r_edf →
  alg "edf_multinode_no_delay" [application_data; platform_data] = inr r_edfm →
  alg "ldf_multinode_no_delay" [application_data; platform_data] = inr r_ldfm →
  alg "ll_multinode_no_delay" [application_data; platform_data] = inr r_llm →
  (∃ v, v ∈ [r_ldf; r_edf; r_edfm; r_ldfm; r_llm] ∧ validate v output_schema ≠ None) →
  (schedule_jobs data).2 = inl (HTTPException 500 "Invalid Output Schema").
Proof.
  cbn zeta. intros Hin H1 H2 H3 H4 H5 (v & Hv & Hbad).
  run_route data; try congruence.
  exfalso. apply Hbad.
  rewrite H1 in Hcall. rewrite H2 in Hcall0. rewrite H3 in Hcall1.
  rewrite H4 in Hcall2. rewrite H5 in Hcall3.
  simplify_eq.
  repeat (apply elem_of_cons in Hv as [->|Hv]; [done|]).
  by apply elem_of_nil in Hv.
Qed.

(** C10.  On an input that the input schema accepts, an absent
    [application] (or [platform]) key raises nothing: the route goes on to
    call [alg.ldf_single_node], every call it makes carries [None] in the
    place of the absent value, and the only exceptions it can end with are
    one raised by an algorithm or the HTTP 500 of the output validation. *)
Theorem missing_key_is_passed_as_None (data : dict) :
  validate (JObj data) input_schema = None →
  let t := (schedule_jobs data).1 in
  (dict_lookup data "application" = None →
     head (calls t) = Some ("ldf_single_node", [JNull])
     ∧ calls t `prefix_of` expected_calls JNull (dict_get data "platform"))
  ∧ (dict_lookup data "platform" = None →
     head (calls t) = Some ("ldf_single_node", [dict_get data "application"])
     ∧ calls t `prefix_of` expected_calls (dict_get data "application") JNull)
  ∧ (∀ e, (schedule_jobs data).2 = inl e →
     (∃ x, e = AlgException x) ∨ e = HTTPException 500 "Invalid Output Schema").
Proof.
  intros Hin. cbn zeta. unfold expected_calls.
  run_route data; try congruence.
  all: split; [intros Hno | split; [intros Hno | intros ? [=]; subst; eauto]].
  all: unfold dict_get; rewrite ?Hno; cbn.
  all: split; [done | eexists; cbn; reflexivity].
Qed.

(** ** Further facts about the route *)

(** X1.  When the input is valid, the five algorithms return and the output
    schema accepts the five schedules, the route returns the response that
    binds them under the five keys, after doing exactly this: print the
    input, validate it, print that it is valid, call the five algorithms,
    validate and acknowledge each schedule in the order of the response, and
    print the response. *)
Theorem valid_run_returns_the_response (data : dict)
    (r_ldf r_edf r_edfm r_ldfm r_llm : json) :
  let application_data := dict_get data "application" in
  let platform_data := dict_get data "platform" in
  let response : dict :=
    [ ("edfsingle_node", r_edf); ("ldf_single_node", r_ldf);
      ("edf_multinode_no_delay", r_edfm); ("ldf_multinode_no_delay", r_ldfm);
      ("ll_multinode_no_delay", r_llm) ] in
  validate (JObj data) input_schema = None →
  alg "ldf_single_node" [application_data] = inr r_ldf →
  alg "edf_single_node" [application_data] = inr r_edf →
  alg "edf_multinode_no_delay" [application_data; platform_data] = inr r_edfm →
  alg "ldf_multinode_no_delay" [application_data; platform_data] = inr r_ldfm →
  alg "ll_multinode_no_delay" [application_data; platform_data] = inr r_llm →
  Forall (λ v, validate v output_schema = None) (dict_values response) →
  schedule_jobs data = (success_trace data response, inr response).
Proof.
  cbn zeta. intros Hin H1 H2 H3 H4 H5 Hout.
  repeat (apply Forall_cons in Hout as [? Hout]). cbn in *.
  unfold schedule_jobs, success_trace, expected_calls. cbn.
  rewrite Hin. cbn. rewrite H1. cbn. rewrite H2. cbn. rewrite H3. cbn.
  rewrite H4. cbn. rewrite H5. cbn.
  repeat match goal with H : validate ?v output_schema = None |- _ =>
    rewrite H; clear H; cbn end.
  done.
Qed.




(** X5.  The first algorithm to raise ends the run: its exception passes
    through unchanged, the algorithms after it are not called, and no
    schedule is validated. *)
Theorem first_failing_algorithm_ends_the_run (data : dict)
    (before after : list (string * list json)) (name : string) (args : list json)
    (e : Exc) :
  validate (JObj data) input_schema = None →
  expected_calls (dict_get data "application") (dict_get data "platform")
    = before ++ (name, args) :: after →
  Forall (λ c, ∃ v, alg c.1 c.2 = inr v) before →
  alg name args = inl e →
  (schedule_jobs data).2 = inl (AlgException e)
  ∧ calls (schedule_jobs data).1 = before ++ [(name, args)]
  ∧ validations (schedule_jobs data).1 = [(JObj data, input_schema)].
Proof.
  intros Hin Hsplit Hbefore Hraise. unfold expected_calls in Hsplit.
  destruct before as [|c1 [|c2 [|c3 [|c4 [|c5 before]]]]]; simplify_eq/=;
    try (by destruct before).
  all: repeat (apply Forall_cons in Hbefore as [[? ?] Hbefore]); cbn in *.
  all: run_route data; try congruence.
  all: by simplify_eq.
Qed.

(** X6.  The schedules are validated in the order of the response keys,
    [edfsingle_node] first, and the validation stops at the first schedule
    that the output schema rejects: the schedules after it are not looked
    at. *)
Theorem output_validation_stops_at_the_first_rejection (data : dict)
    (r_ldf r_edf r_edfm r_ldfm r_llm : json) :
  let application_data := dict_get data "application" in
  let platform_data := dict_get data "platform" in
  validate (JObj data) input_schema = None →
  alg "ldf_single_node" [application_data] = inr r_ldf →
  alg "edf_single_node" [application_data] = inr r_edf →
  alg "edf_multinode_no_delay" [application_data; platform_data] = inr r_edfm →
  alg "ldf_multinode_no_delay" [application_data; platform_data] = inr r_ldfm →
  alg "ll_multinode_no_delay" [application_data; platform_data] = inr r_llm →
  validations (schedule_jobs data).1
  = (JObj data, input_schema)
    :: ((λ v, (v, output_schema))
          <$> validated_schedules (validation_order r_ldf r_edf r_edfm r_ldfm r_llm)).
Proof.
  cbn zeta. intros Hin H1 H2 H3 H4 H5.
  unfold validated_schedules, validation_order.
  run_route data; try congruence.
  all: rewrite H1 in Hcall; rewrite H2 in Hcall0; rewrite H3 in Hcall1;
    rewrite H4 in Hcall2; rewrite H5 in Hcall3; simplify_eq.
  all: repeat match goal with
              | H : validate _ output_schema = _ |- _ => rewrite H; clear H; cbn
              end.
  all: done.
Qed.

(** X7.  The platform has no part in the single-node schedules: two
    accepted inputs with the same [application] get the same
    [ldf_single_node] and [edfsingle_node] entries, whatever their
    [platform]s are. *)
Theorem single_node_entries_ignore_the_platform (data data' : dict) t t' response response' :
  dict_get data "application" = dict_get data' "application" →
  schedule_jobs data = (t, inr response) →
  schedule_jobs data' = (t', inr response') →
  dict_lookup response "ldf_single_node" = dict_lookup response' "ldf_single_node"
  ∧ dict_lookup response "edfsingle_node" = dict_lookup response' "edfsingle_node".
Proof.
  intros Happ Hrun Hrun'.
  apply schedule_jobs_returns in Hrun as (r1 & r2 & ? & ? & ? & H1 & H2 & _ & _ & _ & ->).
  apply schedule_jobs_returns in Hrun' as (r1' & r2' & ? & ? & ? & H1' & H2' & _ & _ & _ & ->).
  cbn in *. rewrite <- Happ in H1', H2'. split; congruence.
Qed.

(** X8.  Of a valid input the route reads the values of [application] and
    of [platform] and nothing else: two valid inputs that agree on these two
    values, whatever other keys they hold, lead to the same calls and to the
    same outcome.  A key bound to [null] counts as an absent key. *)
Theorem only_application_and_platform_matter (data data' : dict) :
  validate (JObj data) input_schema = None →
  validate (JObj data') input_schema = None →
  dict_get data "application" = dict_get data' "application" →
  dict_get data "platform" = dict_get data' "platform" →
  (schedule_jobs data).2 = (schedule_jobs data').2
  ∧ calls (schedule_jobs data).1 = calls (schedule_jobs data').1.
Proof.
  intros Hin Hin' Happ Hplat. unfold schedule_jobs. cbn.
  rewrite Hin, Hin'. cbn. rewrite <- Happ, <- Hplat.
  case_alg "ldf_single_node"; case_alg "edf_single_node";
  case_alg "edf_multinode_no_delay"; case_alg "ldf_multinode_no_delay";
  case_alg "ll_multinode_no_delay";
  case_output "edf_single_node"; case_output "ldf_single_node";
  case_output "edf_multinode_no_delay"; case_output "ldf_multinode_no_delay";
  case_output "ll_multinode_no_delay"; done.
Qed.

End route.

Arguments schedule_jobs {VErr Exc schema}.
Arguments calls {VErr schema}.
Arguments PStr {VErr}.
Arguments PDumps {VErr}.
Arguments PErr {VErr}.
Arguments EvPrint {VErr schema}.
Arguments EvValidate {VErr schema}.
Arguments EvCall {VErr schema}.
Arguments ValidationError {VErr Exc}.
Arguments HTTPException {VErr Exc}.
Arguments AlgException {VErr Exc}.
Arguments bound_to {Exc}.
Arguments validations {VErr schema}.
Arguments success_trace {VErr schema}.
Arguments validated_schedules {VErr schema}.

(** ** A concrete deployment

    Two small schemas and a stand-in for [algorithms], on which the route
    can be run.  The input schema wants [application], when present, to be
    an object; the output schema wants a schedule to be an array.  The
    stand-in returns the empty schedule when given objects, returns [None]
    from a multi-node algorithm that is given no platform, and raises
    otherwise. *)

Inductive demo_schema : Type := InputSchema | OutputSchema.

Definition demo_validate (v : json) (s : demo_schema) : option string :=
  match s, v with
  | InputSchema, JObj members =>
      match dict_lookup members "application" with
      | None | Some (JObj _) => None
      | Some _ => Some "application: not of type object"
      end
  | OutputSchema, JArr _ => None
  | _, _ => Some "wrong type"
  end.

Definition demo_alg (name : string) (args : list json) : string + json :=
  match args with
  | [JObj _] | [JObj _; JObj _] => inr (JArr [])
  | [JObj _; JNull] => inr JNull
  | _ => inl "TypeError"
  end.

(** A second stand-in, which agrees with the first on [ldf_single_node]
    and answers with one empty node everywhere else. *)
Definition other_alg (name : string) (args : list json) : string + json :=
  if String.eqb name "ldf_single_node" then demo_alg name args
  else inr (JArr [JArr []]).

Definition demo_route : dict → list (event string demo_schema) * (exn string string + dict) :=
  schedule_jobs InputSchema OutputSchema demo_validate demo_alg.

Definition full_request : dict :=
  [ ("application", JObj [("jobs", JArr [])]); ("platform", JObj [("nodes", JNum 2)]) ].

Definition no_platform_request : dict := [ ("application", JObj [("jobs", JArr [])]) ].

Definition bad_request : dict := [ ("application", JStr "jobs") ].

(** The keys the interface description announces. *)
Definition announced_keys : list string :=
  [ "ldf_single_node"; "edf_single_node"; "edf_multinode_no_delay";
    "ldf_multinode_no_delay"; "ll_multinode_no_delay" ].

(** C1, counterexample.  On a request that the route accepts, the response
    has no key [edf_single_node]: the EDF single-node schedule sits under
    [edfsingle_node], so the keys are not the announced ones. *)
Lemma edf_single_node_is_not_a_key :
  ∃ response,
    (demo_route full_request).2 = inr response
    ∧ dict_lookup response "edf_single_node" = None
    ∧ dict_lookup response "edfsingle_node" = Some (JArr [])
    ∧ ¬ dict_keys response ≡ₚ announced_keys.
Proof.
  eexists. split; [vm_compute; reflexivity |]. repeat split.
  intros Hperm.
  assert (Hin : "edf_single_node" ∈ announced_keys) by (apply list_elem_of_In; cbn; tauto).
  rewrite <- Hperm in Hin. cbn in Hin.
  repeat (apply elem_of_cons in Hin as [Hin|Hin]; [discriminate Hin|]).
  by apply elem_of_nil in Hin.
Qed.

Lemma response_has_the_five_keys_witness :
  ∃ t response,
    demo_route full_request = (t, inr response)
    ∧ dict_keys response = response_keys
    ∧ bound_to response "edfsingle_node" (inr (JArr []) : string + json).
Proof.
  eexists _, _. split; [reflexivity |].
  pose proof (response_has_the_five_keys _ _ _ InputSchema OutputSchema
                demo_validate demo_alg full_request _ _ eq_refl) as H.
  cbn zeta in H. split; [apply H |]. apply H.
Defined.

Lemma invalid_input_is_rejected_first_witness :
  demo_route bad_request =
    ( [ EvPrint [PStr "Received JSON data:"; PDumps (JObj bad_request)];
        EvValidate (JObj bad_request) InputSchema;
        EvPrint [PStr "Input data is invalid:"; PErr "application: not of type object"] ],
      inl (HTTPException 400 "Invalid Input schema") ).
Proof.
  exact (proj1 (invalid_input_is_rejected_first _ _ _ InputSchema OutputSchema
                  demo_validate demo_alg bad_request _ eq_refl)).
Defined.

Lemma response_values_are_untouched_witness :
  ∃ t response,
    demo_route full_request = (t, inr response)
    ∧ dict_values response = [JArr []; JArr []; JArr []; JArr []; JArr []].
Proof.
  eexists _, _. split; [reflexivity |].
  pose proof (response_values_are_untouched _ _ _ InputSchema OutputSchema
                demo_validate demo_alg full_request _ _ eq_refl) as H.
  cbn in H. by simplify_eq.
Defined.

Lemma invalid_output_is_an_http_500_witness :
  (demo_route no_platform_request).2 = inl (HTTPException 500 "Invalid Output Schema").
Proof.
  apply (invalid_output_is_an_http_500 _ _ _ InputSchema OutputSchema
           demo_validate demo_alg no_platform_request
           (JArr []) (JArr []) JNull JNull JNull); try reflexivity.
  exists JNull. split; [| discriminate].
  apply list_elem_of_In. cbn. tauto.
Defined.

Lemma missing_key_is_passed_as_None_witness :
  dict_lookup no_platform_request "platform" = None
  ∧ calls (demo_route no_platform_request).1 `prefix_of`
      expected_calls (JObj [("jobs", JArr [])]) JNull.
Proof.
  split; [reflexivity |].
  apply (missing_key_is_passed_as_None _ _ _ InputSchema OutputSchema
           demo_validate demo_alg no_platform_request eq_refl).
  reflexivity.
Defined.

(** ** Further runs of the concrete deployment *)

Definition empty_schedules : dict :=
  [ ("edfsingle_node", JArr []); ("ldf_single_node", JArr []);
    ("edf_multinode_no_delay", JArr []); ("ldf_multinode_no_delay", JArr []);
    ("ll_multinode_no_delay", JArr []) ].

(** A platform that is a number makes the multi-node algorithms raise. *)
Definition odd_platform_request : dict :=
  [ ("application", JObj [("jobs", JArr [])]); ("platform", JNum 3) ].

Definition four_node_request : dict :=
  [ ("application", JObj [("jobs", JArr [])]); ("platform", JObj [("nodes", JNum 4)]) ].

Definition annotated_request : dict :=
  [ ("comment", JStr "nightly"); ("application", JObj [("jobs", JArr [])]);
    ("platform", JObj [("nodes", JNum 2)]); ("priority", JNull) ].

Lemma valid_run_returns_the_response_witness :
  demo_route full_request
  = (success_trace InputSchema OutputSchema full_request empty_schedules,
     inr empty_schedules).
Proof.
  apply (valid_run_returns_the_response _ _ _ InputSchema OutputSchema
           demo_validate demo_alg full_request
           (JArr []) (JArr []) (JArr []) (JArr []) (JArr [])); try reflexivity.
  by repeat constructor.
Defined.

Lemma first_failing_algorithm_ends_the_run_witness :
  (demo_route odd_platform_request).2 = inl (AlgException "TypeError")
  ∧ calls (demo_route odd_platform_request).1
    = [ ("ldf_single_node", [JObj [("jobs", JArr [])]]);
        ("edf_single_node", [JObj [("jobs", JArr [])]]);
        ("edf_multinode_no_delay", [JObj [("jobs", JArr [])]; JNum 3]) ]
  ∧ validations (demo_route odd_platform_request).1
    = [ (JObj odd_platform_request, InputSchema) ].
Proof.
  apply (first_failing_algorithm_ends_the_run _ _ _ InputSchema OutputSchema
           demo_validate demo_alg odd_platform_request
           [ ("ldf_single_node", [JObj [("jobs", JArr [])]]);
             ("edf_single_node", [JObj [("jobs", JArr [])]]) ]
           [ ("ldf_multinode_no_delay", [JObj [("jobs", JArr [])]; JNum 3]);
             ("ll_multinode_no_delay", [JObj [("jobs", JArr [])]; JNum 3]) ]
           "edf_multinode_no_delay" [JObj [("jobs", JArr [])]; JNum 3] "TypeError");
    try reflexivity.
  repeat constructor; by eexists.
Defined.

Lemma output_validation_stops_at_the_first_rejection_witness :
  validations (demo_route no_platform_request).1
  = [ (JObj no_platform_request, InputSchema);
      (JArr [], OutputSchema); (JArr [], OutputSchema); (JNull, OutputSchema) ].
Proof.
  exact (output_validation_stops_at_the_first_rejection _ _ _ InputSchema OutputSchema
           demo_validate demo_alg no_platform_request
           (JArr []) (JArr []) JNull JNull JNull
           eq_refl eq_refl eq_refl eq_refl eq_refl eq_refl).
Defined.

Lemma single_node_entries_ignore_the_platform_witness :
  ∃ t t' response response',
    demo_route full_request = (t, inr response)
    ∧ demo_route four_node_request = (t', inr response')
    ∧ dict_lookup response "ldf_single_node" = dict_lookup response' "ldf_single_node"
    ∧ dict_lookup response "edfsingle_node" = dict_lookup response' "edfsingle_node".
Proof.
  eexists _, _, _, _. split; [reflexivity |]. split; [reflexivity |].
  apply (single_node_entries_ignore_the_platform _ _ _ InputSchema OutputSchema
           demo_validate demo_alg full_request four_node_request _ _ _ _
           eq_refl eq_refl eq_refl).
Defined.

Lemma only_application_and_platform_matter_witness :
  (demo_route full_request).2 = (demo_route annotated_request).2
  ∧ calls (demo_route full_request).1 = calls (demo_route annotated_request).1.
Proof.
  apply (only_application_and_platform_matter _ _ _ InputSchema OutputSchema
           demo_validate demo_alg full_request annotated_request); reflexivity.
Defined.

End Backend.

(** * The scheduling engine *)

Module Engine.

(** ** Data model *)

(** Modelled from the spec: the job of the data model (the module
    [algorithms], which holds the engine, is not among the sources).  Times
    and durations are integers, the deadline is an absolute time, and the
    dependencies are the set of the ids of the job's predecessors. *)
Record Job : Type := mkJob {
  id : nat;
  execution_time : Z;
  period : option Z;
  deadline : Z;
  arrival : Z;
  dependencies : gset nat
}.

#[global] Instance Job_eq_dec : EqDecision Job.
Proof. solve_decision. Defined.

(** Modelled from the spec: the platform, [node_count] identical nodes. *)
Record Platform : Type := mkPlatform { node_count : nat }.

(** Modelled from the spec: one interval of a schedule. *)
Record Interval : Type := mkInterval {
  job_id : nat;
  start_time : Z;
  finish_time : Z
}.

(** Modelled from the spec: the result, one ordered list of intervals per
    node. *)
Abbreviation Result := (list (list Interval)).

(** Modelled from the spec: the fatal failures of the error taxonomy. *)
Inductive Failure : Type := CyclicDependency | UnknownReference | InvalidTiming.

Definition ids (jobs : list Job) : list nat := id <$> jobs.

(** ** Job graph validator *)

(** [j] waits for a job of [pending]. *)
Definition blocked (pending : list Job) (j : Job) : Prop :=
  Exists (λ p, id p ∈ dependencies j) pending.

#[global] Instance blocked_dec pending j : Decision (blocked pending j).
Proof. unfold blocked. apply _. Defined.

(** Rounds of peeling: each round drops the jobs that wait for no job
    still present.  What is left after as many rounds as there are jobs
    lies on a cycle or behind one. *)
Fixpoint peel (rounds : nat) (pending : list Job) : list Job :=
  match rounds with
  | O => pending
  | S rounds' => peel rounds' (filter (blocked pending) pending)
  end.

Definition unknown_reference (jobs : list Job) (j : Job) : Prop :=
  ¬ dependencies j ⊆ list_to_set (ids jobs).

#[global] Instance unknown_reference_dec jobs j : Decision (unknown_reference jobs j).
Proof. unfold unknown_reference. apply _. Defined.

Definition invalid_timing (j : Job) : Prop :=
  execution_time j ≤ 0 ∨ deadline j < arrival j.

#[global] Instance invalid_timing_dec j : Decision (invalid_timing j).
Proof. unfold invalid_timing. apply _. Defined.

(** Modelled from the spec: a validated job model; [validate_jobs] is the
    one place that builds it. *)
Inductive JobModel : Type := Validated (jobs : list Job).

Definition model_jobs (m : JobModel) : list Job :=
  match m with Validated jobs => jobs end.

(** Modelled from the spec: the job graph validator of the component
    design, which returns the validated model or fails with
    [CyclicDependency], [UnknownReference] or [InvalidTiming], looked for in
    that order. *)
Definition validate_jobs (jobs : list Job) : Failure + JobModel :=
  if decide (peel (length jobs) jobs = []) then
    if decide (Exists (unknown_reference jobs) jobs) then inl UnknownReference
    else if decide (Exists invalid_timing jobs) then inl InvalidTiming
    else inr (Validated jobs)
  else inl CyclicDependency.

(** [j] depends on [p], both jobs of the set. *)
Definition depends_on (jobs : list Job) (j p : Job) : Prop :=
  j ∈ jobs ∧ p ∈ jobs ∧ id p ∈ dependencies j.

(** The dependency edges of the job set contain a cycle. *)
Definition has_cycle (jobs : list Job) : Prop :=
  ∃ j, tc (depends_on jobs) j j.

(** ** Timelines

    While a schedule is being built, the intervals of a node are kept most
    recent first; the result lists them in the order of time. *)

Definition interval_length (iv : Interval) : Z := finish_time iv - start_time iv.

(** The time for which the job [i] runs in [ivs]. *)
Definition run_time (i : nat) (ivs : list Interval) : Z :=
  foldr (λ iv acc, if decide (job_id iv = i) then interval_length iv + acc else acc) 0 ivs.

Definition executed (tl : list (list Interval)) (i : nat) : Z := run_time i (concat tl).

Definition remaining (tl : list (list Interval)) (j : Job) : Z :=
  execution_time j - executed tl (id j).

Definition finished (tl : list (list Interval)) (j : Job) : Prop := remaining tl j ≤ 0.

#[global] Instance finished_dec tl j : Decision (finished tl j).
Proof. unfold finished. apply _. Defined.

Definition predecessors_finished (jobs : list Job) (tl : list (list Interval)) (j : Job) : Prop :=
  Forall (λ p, id p ∈ dependencies j → finished tl p) jobs.

#[global] Instance predecessors_finished_dec jobs tl j :
  Decision (predecessors_finished jobs tl j).
Proof. unfold predecessors_finished. apply _. Defined.

(** Modelled from the spec: readiness, shared by the simulations: the job
    has arrived, all its predecessors are complete and it is not finished. *)
Definition ready (jobs : list Job) (tl : list (list Interval)) (t : Z) (j : Job) : Prop :=
  arrival j ≤ t ∧ ¬ finished tl j ∧ predecessors_finished jobs tl j.

#[global] Instance ready_dec jobs tl t j : Decision (ready jobs tl t j).
Proof. unfold ready. apply _. Defined.

(** The job that a node is in the middle of at time [t], if any. *)
Definition current (t : Z) (l : list Interval) : option nat :=
  match l with
  | iv :: _ => if decide (finish_time iv = t) then Some (job_id iv) else None
  | [] => None
  end.

Definition is_running (tl : list (list Interval)) (t : Z) (j : Job) : Prop :=
  id j ∈ omap (current t) tl.

#[global] Instance is_running_dec tl t j : Decision (is_running tl t j).
Proof. unfold is_running. apply _. Defined.

(** The time since which a node has been idle. *)
Definition idle_since (tl : list (list Interval)) (k : nat) : Z :=
  match tl !! k with
  | Some (iv :: _) => finish_time iv
  | _ => 0
  end.

(** ** Priority policies

    The dynamic policies are EDF and LL; LDF, further down, is static.
    Rate-monotonic priorities feed no schedule of the output and are left
    out. *)

(** Modelled from the spec: a policy gives every job an urgency at every
    event, the lower the more urgent, and says whether a running job may be
    preempted. *)
Record Policy : Type := mkPolicy {
  urgency : list (list Interval) → Z → Job → Z;
  preemptive : bool
}.

(** Lower urgency first; among equals the lowest id. *)
Definition runs_before (key : Job → Z) (a b : Job) : Prop :=
  key a < key b ∨ (key a = key b ∧ (id a ≤ id b)%nat).

#[global] Instance runs_before_dec key a b : Decision (runs_before key a b).
Proof. unfold runs_before. apply _. Defined.

(** Longest idle first; among equals the lowest node index. *)
Definition idle_before (tl : list (list Interval)) (a b : nat) : Prop :=
  idle_since tl a < idle_since tl b ∨ (idle_since tl a = idle_since tl b ∧ (a ≤ b)%nat).

#[global] Instance idle_before_dec tl a b : Decision (idle_before tl a b).
Proof. unfold idle_before. apply _. Defined.

(** Modelled from the spec: earliest deadline first. *)
Definition EDF : Policy :=
  {| urgency := λ _ _ j, deadline j; preemptive := true |}.

(** Modelled from the spec: least laxity, the laxity of a job at time [t]
    being [deadline - t - remaining_execution_time]. *)
Definition laxity (tl : list (list Interval)) (t : Z) (j : Job) : Z :=
  deadline j - t - remaining tl j.

Definition LL : Policy := {| urgency := laxity; preemptive := true |}.

(** ** Event-driven simulation on identical nodes without delay *)

(** The ready jobs, most urgent first. *)
Definition ranked (p : Policy) (jobs : list Job) (tl : list (list Interval)) (t : Z)
  : list Job :=
  merge_sort (runs_before (urgency p tl t)) (filter (ready jobs tl t) jobs).

(** The jobs that run until the next event: as many of the most urgent
    ready jobs as there are nodes; under a policy that does not preempt, the
    jobs in the middle of their execution come first. *)
Definition selected (p : Policy) (jobs : list Job) (tl : list (list Interval)) (t : Z)
  : list Job :=
  let r := ranked p jobs tl t in
  take (length tl)
    (if preemptive p then r
     else filter (is_running tl t) r ++ filter (λ j, ¬ is_running tl t j) r).

(** A selected job that a node is in the middle of stays on that node. *)
Definition stays_on (sel : list Job) (t : Z) (l : list Interval) : option Job :=
  i ← current t l; snd <$> list_find (λ j, id j = i) sel.

Definition stays (sel : list Job) (tl : list (list Interval)) (t : Z) : list (nat * Job) :=
  omap (λ '(k, l), (λ j, (k, j)) <$> stays_on sel t l) (imap pair tl).

Definition free_nodes (sel : list Job) (tl : list (list Interval)) (t : Z) : list nat :=
  merge_sort (idle_before tl)
    (omap (λ '(k, l), match stays_on sel t l with None => Some k | Some _ => None end)
       (imap pair tl)).

Definition newcomers (sel : list Job) (tl : list (list Interval)) (t : Z) : list Job :=
  filter (λ j, ¬ is_running tl t j) sel.

(** Modelled from the spec: the assignment of jobs to nodes at an event.
    The other selected jobs go to the free nodes, the node idle for longest
    taking the most urgent. *)
Definition assignment (p : Policy) (jobs : list Job) (tl : list (list Interval)) (t : Z)
  : list (nat * Job) :=
  let sel := selected p jobs tl t in
  stays sel tl t ++ zip (free_nodes sel tl t) (newcomers sel tl t).

Fixpoint assigned_to (asg : list (nat * Job)) (k : nat) : option Job :=
  match asg with
  | [] => None
  | (k', j) :: asg' => if decide (k' = k) then Some j else assigned_to asg' k
  end.

Definition min_list (l : list Z) : option Z :=
  match l with
  | [] => None
  | x :: l' => Some (foldr Z.min x l')
  end.

(** Modelled from the spec: the time to the next event, the completion of a
    running job or the arrival of a job.  A completion is what unblocks a
    successor, so it needs no case of its own. *)
Definition next_event (jobs : list Job) (tl : list (list Interval)) (t : Z)
    (asg : list (nat * Job)) : option Z :=
  min_list (((λ a, remaining tl a.2) <$> asg)
            ++ ((λ j, arrival j - t) <$> filter (λ j, t < arrival j) jobs)).

(** The job [i] runs on a node from [t] for [δ]; an interval that it was
    in the middle of is prolonged. *)
Definition extend (i : nat) (t δ : Z) (l : list Interval) : list Interval :=
  match l with
  | iv :: l' =>
      if decide (job_id iv = i ∧ finish_time iv = t)
      then mkInterval i (start_time iv) (t + δ) :: l'
      else mkInterval i t (t + δ) :: l
  | [] => [mkInterval i t (t + δ)]
  end.

Definition advance (asg : list (nat * Job)) (t δ : Z) (tl : list (list Interval))
  : list (list Interval) :=
  imap (λ k l, match assigned_to asg k with
               | Some j => extend (id j) t δ l
               | None => l
               end) tl.

(** Modelled from the spec: the simulation, one round per event. *)
Fixpoint simulate (p : Policy) (jobs : list Job) (events : nat) (t : Z)
    (tl : list (list Interval)) : list (list Interval) :=
  match events with
  | O => tl
  | S events' =>
      let asg := assignment p jobs tl t in
      match next_event jobs tl t asg with
      | None => tl
      | Some δ => simulate p jobs events' (t + δ) (advance asg t δ tl)
      end
  end.

(** Every round ends with a completion or an arrival, so twice the number
    of jobs is as many rounds as a simulation can need. *)
Definition schedule_with (p : Policy) (jobs : list Job) (nodes : nat) : Result :=
  reverse <$> simulate p jobs (2 * length jobs) 0 (replicate nodes []).

(** ** Latest deadline first *)

(** A job of [unassigned] depends on [j]. *)
Definition has_unassigned_successor (unassigned : list Job) (j : Job) : Prop :=
  Exists (λ k, id j ∈ dependencies k) unassigned.

#[global] Instance has_unassigned_successor_dec unassigned j :
  Decision (has_unassigned_successor unassigned j).
Proof. unfold has_unassigned_successor. apply _. Defined.

(** The jobs whose successors have all been assigned, the one with the
    latest deadline first and among equals the lowest id. *)
Definition ldf_candidates (unassigned : list Job) : list Job :=
  merge_sort (runs_before (λ j, - deadline j))
    (filter (λ j, ¬ has_unassigned_successor unassigned j) unassigned).

(** Modelled from the spec: LDF priority assignment on the reverse graph.
    The job picked in a round is to run last among those still unassigned,
    so it goes in front of the jobs picked before it: [order] is the
    execution order. *)
Fixpoint ldf_assign (rounds : nat) (unassigned order : list Job) : list Job :=
  match rounds with
  | O => order
  | S rounds' =>
      match ldf_candidates unassigned with
      | [] => order
      | j :: _ => ldf_assign rounds' (filter (λ k, id k ≠ id j) unassigned) (j :: order)
      end
  end.

Definition ldf_order (jobs : list Job) : list Job := ldf_assign (length jobs) jobs [].

Definition latest (base : Z) (l : list Z) : Z := foldr Z.max base l.

(** Modelled from the spec: the single-node scheduler for a static order.
    The jobs run back to back without preemption, each from the latest of
    its arrival, the finish times of its predecessors and the finish time
    of the job before it. *)
Fixpoint run_in_order (order : list Job) (previous : option Z) (past : list Interval)
  : list Interval :=
  match order with
  | [] => []
  | j :: order' =>
      let predecessors := filter (λ iv, job_id iv ∈ dependencies j) past in
      let start :=
        latest (arrival j) (option_list previous ++ (finish_time <$> predecessors)) in
      let iv := mkInterval (id j) start (start + execution_time j) in
      iv :: run_in_order order' (Some (finish_time iv)) (iv :: past)
  end.

(** The place of a job in a static order, as an urgency. *)
Definition position (order : list Job) (j : Job) : Z :=
  match list_find (λ k, id k = id j) order with
  | Some (n, _) => Z.of_nat n
  | None => Z.of_nat (length order)
  end.

(** Modelled from the spec: list scheduling under the LDF order; a job
    that runs is not preempted. *)
Definition LDF (jobs : list Job) : Policy :=
  {| urgency := λ _ _ j, position (ldf_order jobs) j; preemptive := false |}.

(** ** The engine *)

(** Modelled from the spec: the closed set of scheduling algorithms. *)
Inductive Scheduler : Type :=
| ldf_single_node
| edf_single_node
| ll_single_node
| ldf_multinode_no_delay
| edf_multinode_no_delay
| ll_multinode_no_delay.

Definition run (s : Scheduler) (m : JobModel) (pf : Platform) : Result :=
  let jobs := model_jobs m in
  match s with
  | ldf_single_node => [run_in_order (ldf_order jobs) None []]
  | edf_single_node => schedule_with EDF jobs 1
  | ll_single_node => schedule_with LL jobs 1
  | ldf_multinode_no_delay => schedule_with (LDF jobs) jobs (node_count pf)
  | edf_multinode_no_delay => schedule_with EDF jobs (node_count pf)
  | ll_multinode_no_delay => schedule_with LL jobs (node_count pf)
  end.

Definition scheduler_name (s : Scheduler) : string :=
  match s with
  | ldf_single_node => "ldf_single_node"
  | edf_single_node => "edf_single_node"
  | ll_single_node => "ll_single_node"
  | ldf_multinode_no_delay => "ldf_multinode_no_delay"
  | edf_multinode_no_delay => "edf_multinode_no_delay"
  | ll_multinode_no_delay => "ll_multinode_no_delay"
  end.

(** Modelled from the spec: the computation for a set of algorithms.  The
    job set is validated once; only a validated model reaches an
    algorithm. *)
Definition engine_with (algorithms : list (string * (JobModel → Platform → Result)))
    (jobs : list Job) (pf : Platform) : Failure + list (string * Result) :=
  match validate_jobs jobs with
  | inl failure => inl failure
  | inr m => inr ((λ a, (a.1, a.2 m pf)) <$> algorithms)
  end.

(** Modelled from the spec: the algorithm set of the output interface. *)
Definition algorithm_set : list Scheduler :=
  [ ldf_single_node; edf_single_node; edf_multinode_no_delay;
    ldf_multinode_no_delay; ll_multinode_no_delay ].

Definition engine : list Job → Platform → Failure + list (string * Result) :=
  engine_with ((λ s, (scheduler_name s, run s)) <$> algorithm_set).

(** ** What a result has to satisfy *)

(** Every interval of a job starts when every interval of each of its
    predecessors has finished. *)
Definition precedence_respected (jobs : list Job) (r : Result) : Prop :=
  ∀ j iv iv_p,
    j ∈ jobs → iv ∈ concat r → job_id iv = id j →
    iv_p ∈ concat r → job_id iv_p ∈ dependencies j →
    finish_time iv_p ≤ start_time iv.

(** The intervals of a node are in the order of time and do not overlap:
    each ends after it starts, and no later than any interval after it
    starts. *)
Definition ordered_intervals (l : list Interval) : Prop :=
  Forall (λ iv, start_time iv < finish_time iv) l
  ∧ StronglySorted (λ iv iv', finish_time iv ≤ start_time iv') l.

(** ** Vocabulary of the proofs *)

(** What a node's list can become in one round. *)
Definition node_step (asg : list (nat * Job)) (t δ : Z) (l l' : list Interval) : Prop :=
  l' = l ∨ ∃ k j, (k, j) ∈ asg ∧ l' = extend (id j) t δ l.

(** On a node's list, newest first, every interval starts when the older
    ones have finished. *)
Definition after_older (newer older : Interval) : Prop :=
  finish_time older ≤ start_time newer.

(** What holds of the timelines at every event of a simulation. *)
Record invariant (jobs : list Job) (t : Z) (tl : list (list Interval)) : Prop := {
  inv_past : ∀ iv, iv ∈ concat tl → start_time iv < finish_time iv ≤ t;
  inv_sorted : Forall (StronglySorted after_older) tl;
  inv_precedence : ∀ j iv iv_p,
    j ∈ jobs → iv ∈ concat tl → job_id iv = id j →
    iv_p ∈ concat tl → job_id iv_p ∈ dependencies j →
    finish_time iv_p ≤ start_time iv;
  inv_started : ∀ j iv,
    j ∈ jobs → iv ∈ concat tl → job_id iv = id j → predecessors_finished jobs tl j
}.

(** In an execution order, a job comes after the jobs it depends on. *)
Definition topological (order : list Job) : Prop :=
  ∀ a b p j,
    order !! a = Some p → order !! b = Some j → id p ∈ dependencies j → (a < b)%nat.

(** What holds of the unassigned jobs and of the order while priorities
    are assigned. *)
Record ldf_invariant (jobs unassigned order : list Job) : Prop := {
  ldf_topological : topological order;
  ldf_successors_assigned :
    ∀ x k, x ∈ order → k ∈ unassigned → id x ∉ dependencies k;
  ldf_unassigned_jobs : unassigned ⊆ jobs;
  ldf_order_jobs : order ⊆ jobs;
  ldf_fresh : ∀ x k, x ∈ order → k ∈ unassigned → id x ≠ id k;
  ldf_nodup : NoDup (ids order)
}.

(** The events a simulation still has to go through: a completion for
    every unfinished job, an arrival for every job yet to arrive. *)
Definition pending_events (jobs : list Job) (t : Z) (tl : list (list Interval)) : nat :=
  Nat.add (length (filter (λ j, ¬ finished tl j) jobs))
          (length (filter (λ j, t < arrival j) jobs)).

(** No job is in the middle of its execution on two nodes. *)
Definition one_node_per_job (t : Z) (tl : list (list Interval)) : Prop :=
  ∀ k1 k2 l1 l2 i,
    tl !! k1 = Some l1 → tl !! k2 = Some l2 →
    current t l1 = Some i → current t l2 = Some i → k1 = k2.

(** No job has run for longer than its execution time. *)
Definition within_budget (jobs : list Job) (tl : list (list Interval)) : Prop :=
  ∀ j, j ∈ jobs → 0 ≤ remaining tl j.

(** ** The examples of the testable properties *)

Definition job_A : Job := mkJob 1 2 None 5 0 ∅.
Definition job_B : Job := mkJob 2 1 None 2 0 ∅.

(** Five jobs with dependencies, two of them with equal deadlines. *)
Definition sample_jobs : list Job :=
  [ mkJob 1 3 None 14 0 ∅;
    mkJob 2 1 None 2 1 {[1%nat]};
    mkJob 3 5 None 9 1 ∅;
    mkJob 4 5 None 9 1 {[2%nat]};
    mkJob 5 5 None 19 1 {[2%nat; 3%nat]} ].

(** A job set with the cycle [A → B → A]. *)
Definition cyclic_pair : list Job :=
  [ mkJob 1 2 None 5 0 {[2%nat]}; mkJob 2 1 None 2 0 {[1%nat]} ].

(** ** Facts about the validator *)

Lemma on_cycle_has_predecessor_on_cycle jobs j :
  tc (depends_on jobs) j j → ∃ p, depends_on jobs j p ∧ tc (depends_on jobs) p p.
Proof.
  intros Hc. inversion Hc as [? ? Hstep | ? p ? Hstep Hrest]; subst.
  - exists j. done.
  - exists p. split; [done |]. by eapply tc_r.
Qed.

(** No round of peeling removes a job that lies on a cycle. *)
Lemma peel_keeps_cycles jobs rounds pending :
  (∀ j, tc (depends_on jobs) j j → j ∈ pending) →
  ∀ j, tc (depends_on jobs) j j → j ∈ peel rounds pending.
Proof.
  revert pending. induction rounds as [|rounds IH]; intros pending Hkeep; [done |].
  cbn. apply IH. intros j Hj.
  apply list_elem_of_filter. split; [| by apply Hkeep].
  destruct (on_cycle_has_predecessor_on_cycle _ _ Hj) as (p & (_ & _ & Hdep) & Hp).
  apply Exists_exists. exists p. split; [by apply Hkeep | done].
Qed.

Lemma on_cycle_is_a_job jobs j : tc (depends_on jobs) j j → j ∈ jobs.
Proof. intros Hc. by destruct (on_cycle_has_predecessor_on_cycle _ _ Hc) as (p & (? & _) & _). Qed.

Lemma elem_of_concat {A} (x : A) (ls : list (list A)) :
  x ∈ concat ls ↔ ∃ l, l ∈ ls ∧ x ∈ l.
Proof.
  induction ls as [|l ls IH]; cbn.
  - rewrite elem_of_nil. split; [done |]. intros (l & Hl & _). by apply elem_of_nil in Hl.
  - rewrite elem_of_app, IH. split.
    + intros [Hx | (l' & Hl' & Hx)].
      * exists l. split; [apply list_elem_of_here | done].
      * exists l'. split; [by apply list_elem_of_further | done].
    + intros (l' & [-> | Hl']%elem_of_cons & Hx); [by left | right; by exists l'].
Qed.

Lemma run_time_cons i iv l :
  run_time i (iv :: l) =
    if decide (job_id iv = i) then interval_length iv + run_time i l else run_time i l.
Proof. reflexivity. Qed.

Lemma run_time_app i l1 l2 : run_time i (l1 ++ l2) = run_time i l1 + run_time i l2.
Proof.
  induction l1 as [|iv l1 IH]; [done |].
  rewrite <- app_comm_cons, !run_time_cons, IH. case_decide; lia.
Qed.

Lemma run_time_extend i' i t δ l :
  run_time i' (extend i t δ l) = run_time i' l + (if decide (i = i') then δ else 0).
Proof.
  unfold extend. destruct l as [|iv l].
  - rewrite run_time_cons. unfold interval_length. cbn. case_decide; lia.
  - case_decide as Hsame; rewrite !run_time_cons; unfold interval_length; cbn.
    + destruct Hsame as [Hid Hfin]. repeat case_decide; try congruence; lia.
    + repeat case_decide; try congruence; lia.
Qed.

Lemma assigned_to_elem_of asg k j : assigned_to asg k = Some j → (k, j) ∈ asg.
Proof.
  induction asg as [|[k' j'] asg IH]; cbn; [done |].
  case_decide; [intros [= ->]; subst; apply list_elem_of_here | intros H'; apply list_elem_of_further; auto].
Qed.

Lemma advance_node_step asg t δ tl :
  Forall2 (node_step asg t δ) tl (advance asg t δ tl).
Proof.
  unfold advance. apply Forall2_same_length_lookup. split.
  - by rewrite length_imap.
  - intros k l l' Hl Hl'. rewrite list_lookup_imap, Hl in Hl'. cbn in Hl'.
    injection Hl' as <-. destruct (assigned_to asg k) as [j|] eqn:Hk; [| by left].
    right. exists k, j. split; [by apply assigned_to_elem_of | done].
Qed.

Lemma elem_of_extend i t δ l iv :
  iv ∈ extend i t δ l →
  iv ∈ l ∨ (job_id iv = i ∧ finish_time iv = t + δ
            ∧ (start_time iv = t
               ∨ ∃ iv0, iv0 ∈ l ∧ job_id iv0 = i ∧ start_time iv0 = start_time iv)).
Proof.
  unfold extend. destruct l as [|iv0 l].
  - intros ->%list_elem_of_singleton. right. cbn. auto.
  - case_decide as Hsame.
    + intros [-> | Hin]%elem_of_cons.
      * right. cbn. repeat split; [done.. |]. right. exists iv0.
        split; [apply list_elem_of_here | by destruct Hsame].
      * left. by apply list_elem_of_further.
    + intros [-> | Hin]%elem_of_cons; [right; cbn; auto | by left].
Qed.

Lemma node_step_elem_of asg t δ tl tl' iv :
  Forall2 (node_step asg t δ) tl tl' →
  iv ∈ concat tl' →
  iv ∈ concat tl
  ∨ ∃ k j, (k, j) ∈ asg ∧ job_id iv = id j ∧ finish_time iv = t + δ
           ∧ (start_time iv = t
              ∨ ∃ iv0, iv0 ∈ concat tl ∧ job_id iv0 = id j
                       ∧ start_time iv0 = start_time iv).
Proof.
  intros Hstep (l' & Hl' & Hiv)%elem_of_concat.
  apply list_elem_of_lookup in Hl' as [n Hn].
  destruct (Forall2_lookup_r _ _ _ _ _ Hstep Hn) as (l & Hl & [-> | (k & j & Hkj & ->)]).
  - left. apply elem_of_concat. exists l. split; [by eapply list_elem_of_lookup_2 | done].
  - apply elem_of_extend in Hiv as [Hiv | (Hid & Hfin & Hstart)].
    + left. apply elem_of_concat. exists l. split; [by eapply list_elem_of_lookup_2 | done].
    + right. exists k, j. repeat split; [done.. |].
      destruct Hstart as [Hstart | (iv0 & Hiv0 & ? & ?)]; [by left | right].
      exists iv0. repeat split; [| done..].
      apply elem_of_concat. exists l. split; [by eapply list_elem_of_lookup_2 | done].
Qed.

Lemma node_step_executed asg t δ tl tl' i :
  0 < δ → Forall2 (node_step asg t δ) tl tl' → executed tl i ≤ executed tl' i.
Proof.
  intros Hδ Hstep. unfold executed.
  induction Hstep as [|l l' tl tl' Hl _ IH]; [done |].
  cbn [concat]. rewrite !run_time_app.
  destruct Hl as [-> | (k & j & _ & ->)]; [lia |].
  rewrite run_time_extend. case_decide; lia.
Qed.

Lemma node_step_finished asg t δ tl tl' j :
  0 < δ → Forall2 (node_step asg t δ) tl tl' → finished tl j → finished tl' j.
Proof.
  intros Hδ Hstep. unfold finished, remaining.
  pose proof (node_step_executed asg t δ tl tl' (id j) Hδ Hstep). lia.
Qed.

Lemma node_step_predecessors_finished jobs asg t δ tl tl' j :
  0 < δ → Forall2 (node_step asg t δ) tl tl' →
  predecessors_finished jobs tl j → predecessors_finished jobs tl' j.
Proof.
  intros Hδ Hstep Hdone. unfold predecessors_finished.
  eapply Forall_impl; [exact Hdone |].
  intros p Hp Hdep. eauto using node_step_finished.
Qed.

Lemma same_id_same_job jobs j j' :
  NoDup (ids jobs) → j ∈ jobs → j' ∈ jobs → id j = id j' → j = j'.
Proof.
  intros Hnd [a Ha]%list_elem_of_lookup [b Hb]%list_elem_of_lookup Hid.
  assert (a = b) as ->; [| congruence].
  eapply NoDup_lookup; [exact Hnd | |]; unfold ids; rewrite list_lookup_fmap.
  - by rewrite Ha.
  - rewrite Hb. cbn. by rewrite Hid.
Qed.

Lemma extend_sorted i t δ l :
  (∀ iv, iv ∈ l → finish_time iv ≤ t) →
  StronglySorted after_older l → StronglySorted after_older (extend i t δ l).
Proof.
  intros Hpast Hsorted. unfold extend. destruct l as [|iv0 l].
  - repeat constructor.
  - case_decide as Hsame.
    + apply StronglySorted_cons in Hsorted as [Hhd Htl].
      apply StronglySorted_cons. split; [| done].
      eapply Forall_impl; [exact Hhd |]. done.
    + apply StronglySorted_cons. split; [| done].
      apply Forall_forall. intros iv Hiv. unfold after_older. cbn. by apply Hpast.
Qed.

Section simulation.

Context (jobs : list Job) (Hids : NoDup (ids jobs)).

Lemma invariant_initial t nodes : invariant jobs t (replicate nodes []).
Proof.
  assert (Hnone : ∀ iv : Interval, iv ∈ concat (replicate nodes []) → False).
  { intros iv (l & Hl & Hiv)%elem_of_concat.
    apply elem_of_replicate in Hl as [-> _]. by apply elem_of_nil in Hiv. }
  split.
  - intros iv Hiv. by destruct (Hnone iv).
  - apply Forall_replicate. constructor.
  - intros j iv iv_p _ Hiv. by destruct (Hnone iv).
  - intros j iv _ Hiv. by destruct (Hnone iv).
Qed.

Lemma invariant_step t tl asg δ tl' :
  invariant jobs t tl →
  0 < δ →
  (∀ k j, (k, j) ∈ asg → j ∈ jobs ∧ ready jobs tl t j) →
  Forall2 (node_step asg t δ) tl tl' →
  invariant jobs (t + δ) tl'.
Proof.
  intros [Hpast Hsorted Hprec Hstarted] Hδ Hasg Hstep.
  assert (Hnew : ∀ j iv, j ∈ jobs → iv ∈ concat tl' → job_id iv = id j →
            (∃ iv0, iv0 ∈ concat tl ∧ job_id iv0 = id j ∧ start_time iv0 = start_time iv)
            ∨ (start_time iv = t ∧ ready jobs tl t j)).
  { intros j iv Hj Hiv Hid.
    destruct (node_step_elem_of _ _ _ _ _ _ Hstep Hiv)
      as [Hold | (k & q & Hkq & Hidq & _ & Hstart)]; [left; by exists iv |].
    destruct (Hasg _ _ Hkq) as [Hq Hready].
    assert (q = j) as -> by (eapply same_id_same_job; eauto; congruence).
    destruct Hstart as [Hstart | (iv0 & ? & ? & ?)]; [by right | left; by exists iv0]. }
  split.
  - intros iv Hiv.
    destruct (node_step_elem_of _ _ _ _ _ _ Hstep Hiv)
      as [Hold | (k & q & Hkq & Hidq & Hfin & Hstart)].
    + specialize (Hpast iv Hold). lia.
    + destruct Hstart as [Hstart | (iv0 & Hiv0 & _ & Hstart)]; [lia |].
      specialize (Hpast iv0 Hiv0). lia.
  - apply Forall_forall. intros l' Hl'.
    apply list_elem_of_lookup in Hl' as [n Hn].
    destruct (Forall2_lookup_r _ _ _ _ _ Hstep Hn) as (l & Hl & Hll').
    assert (Hin : l ∈ tl) by (by eapply list_elem_of_lookup_2).
    assert (Hsl : StronglySorted after_older l).
    { rewrite Forall_forall in Hsorted. by apply Hsorted. }
    destruct Hll' as [-> | (k & q & _ & ->)]; [done |].
    apply extend_sorted; [| done].
    intros iv Hiv. apply Hpast. apply elem_of_concat. by exists l.
  - intros j iv iv_p Hj Hiv Hid Hiv_p Hdep.
    destruct (node_step_elem_of _ _ _ _ _ _ Hstep Hiv_p)
      as [Hold_p | (k & q & Hkq & Hidq & _ & _)].
    + destruct (Hnew j iv Hj Hiv Hid) as [(iv0 & Hiv0 & Hid0 & <-) | [-> _]].
      * by eapply Hprec.
      * by apply Hpast.
    + exfalso. destruct (Hasg _ _ Hkq) as [Hq (_ & Hunfinished & _)].
      apply Hunfinished.
      assert (Hdone : predecessors_finished jobs tl j).
      { destruct (Hnew j iv Hj Hiv Hid) as [(iv0 & Hiv0 & Hid0 & _) | [_ (_ & _ & Hdone)]];
          [by eapply Hstarted | done]. }
      unfold predecessors_finished in Hdone. rewrite Forall_forall in Hdone.
      apply Hdone; [done | congruence].
  - intros j iv Hj Hiv Hid.
    eapply node_step_predecessors_finished; [done.. |].
    destruct (Hnew j iv Hj Hiv Hid) as [(iv0 & Hiv0 & Hid0 & _) | [_ (_ & _ & Hdone)]];
      [by eapply Hstarted | done].
Qed.

End simulation.

Lemma foldr_min_elem_of x l : foldr Z.min x l ∈ x :: l.
Proof.
  induction l as [|y l IH]; cbn; [apply list_elem_of_here |].
  destruct (Z.min_spec y (foldr Z.min x l)) as [[_ ->] | [_ ->]].
  - apply list_elem_of_further, list_elem_of_here.
  - apply elem_of_cons in IH as [-> | IH]; [apply list_elem_of_here |].
    by do 2 apply list_elem_of_further.
Qed.

Lemma min_list_elem_of l δ : min_list l = Some δ → δ ∈ l.
Proof. destruct l as [|x l]; [done |]. intros [= <-]. apply foldr_min_elem_of. Qed.

Lemma foldr_min_le x l y : y ∈ x :: l → foldr Z.min x l ≤ y.
Proof.
  induction l as [|z l IH]; cbn.
  - intros ->%list_elem_of_singleton. lia.
  - intros [-> | [-> | Hy]%elem_of_cons]%elem_of_cons.
    + etrans; [apply Z.le_min_r |]. apply IH, list_elem_of_here.
    + apply Z.le_min_l.
    + etrans; [apply Z.le_min_r |]. by apply IH, list_elem_of_further.
Qed.

Lemma min_list_le l δ y : min_list l = Some δ → y ∈ l → δ ≤ y.
Proof. destruct l as [|x l]; [done |]. intros [= <-]. apply foldr_min_le. Qed.

Lemma stays_on_elem_of sel t l j : stays_on sel t l = Some j → j ∈ sel.
Proof.
  unfold stays_on. destruct (current t l) as [i|]; [| done]. cbn.
  destruct (list_find _ sel) as [[n j']|] eqn:Hfind; [| done]. cbn. intros [= ->].
  apply list_find_Some in Hfind as (Hn & _). by eapply list_elem_of_lookup_2.
Qed.

Lemma selected_ready p jobs tl t j :
  j ∈ selected p jobs tl t → j ∈ jobs ∧ ready jobs tl t j.
Proof.
  unfold selected. intros Hj%subseteq_take.
  assert (Hr : j ∈ ranked p jobs tl t).
  { destruct (preemptive p); [done |].
    apply elem_of_app in Hj as [Hj | Hj]; by apply list_elem_of_filter in Hj as [_ ?]. }
  unfold ranked in Hr. rewrite merge_sort_Permutation in Hr.
  by apply list_elem_of_filter in Hr as [? ?].
Qed.

Lemma assignment_ready p jobs tl t k j :
  (k, j) ∈ assignment p jobs tl t → j ∈ jobs ∧ ready jobs tl t j.
Proof.
  unfold assignment. intros [Hstay | Hnew]%elem_of_app; apply (selected_ready p).
  - unfold stays in Hstay. apply list_elem_of_omap in Hstay as ([k' l] & _ & Hkl).
    destruct (stays_on _ t l) as [j'|] eqn:Hon; [| done].
    injection Hkl as -> ->. by eapply stays_on_elem_of.
  - apply elem_of_zip_r in Hnew. unfold newcomers in Hnew.
    by apply list_elem_of_filter in Hnew as [_ ?].
Qed.

Lemma next_event_positive p jobs tl t δ :
  next_event jobs tl t (assignment p jobs tl t) = Some δ → 0 < δ.
Proof.
  intros Hmin%min_list_elem_of.
  apply elem_of_app in Hmin as [Hrun | Harr].
  - apply list_elem_of_fmap in Hrun as ([k j] & -> & Hkj). cbn.
    apply assignment_ready in Hkj as [_ (_ & Hunfinished & _)].
    unfold finished in Hunfinished. lia.
  - apply list_elem_of_fmap in Harr as (j & -> & Hj).
    apply list_elem_of_filter in Hj as [? _]. lia.
Qed.

Lemma simulate_invariant p jobs events t tl :
  NoDup (ids jobs) → invariant jobs t tl →
  ∃ t', invariant jobs t' (simulate p jobs events t tl).
Proof.
  intros Hids. revert t tl. induction events as [|events IH]; intros t tl Hinv; cbn.
  - by exists t.
  - destruct (next_event _ _ _ _) as [δ|] eqn:Hnext; [| by exists t].
    apply IH. eapply invariant_step; [done.. | | |].
    + by eapply next_event_positive.
    + intros k j. apply assignment_ready.
    + apply advance_node_step.
Qed.

Lemma StronglySorted_reverse {A} (R : relation A) l :
  StronglySorted R l → StronglySorted (flip R) (reverse l).
Proof.
  induction 1 as [|x l _ IH Hx]; [constructor |].
  rewrite reverse_cons. apply StronglySorted_app_2; [| done | repeat constructor].
  intros x1 x2 Hx1 ->%list_elem_of_singleton. rewrite elem_of_reverse in Hx1.
  rewrite Forall_forall in Hx. unfold flip. by apply Hx.
Qed.

Lemma StronglySorted_lookup {A} (R : relation A) l a b x y :
  StronglySorted R l → l !! a = Some x → l !! b = Some y → (a < b)%nat → R x y.
Proof.
  intros Hl. revert a b. induction Hl as [|z l _ IH Hz]; intros a b Ha Hb Hab; [done |].
  destruct a as [|a], b as [|b]; try lia; cbn in *.
  - injection Ha as ->. rewrite Forall_forall in Hz.
    apply Hz. by eapply list_elem_of_lookup_2.
  - eapply IH; [done.. | lia].
Qed.

Lemma elem_of_concat_reverse (tl : list (list Interval)) iv :
  iv ∈ concat (reverse <$> tl) ↔ iv ∈ concat tl.
Proof.
  rewrite !elem_of_concat. split.
  - intros (l & (l0 & -> & Hl0)%list_elem_of_fmap & Hiv).
    rewrite elem_of_reverse in Hiv. eauto.
  - intros (l & Hl & Hiv). exists (reverse l).
    split; [by apply list_elem_of_fmap_2 | by apply elem_of_reverse].
Qed.

(** The generic part of C4: whatever the policy and the number of nodes,
    the simulation respects precedence and keeps every node's intervals
    ordered. *)
Lemma schedule_with_respects jobs p nodes :
  NoDup (ids jobs) →
  precedence_respected jobs (schedule_with p jobs nodes)
  ∧ Forall ordered_intervals (schedule_with p jobs nodes).
Proof.
  intros Hids. unfold schedule_with.
  destruct (simulate_invariant p jobs (2 * length jobs) 0 (replicate nodes []) Hids
              (invariant_initial jobs 0 nodes)) as (t' & [Hpast Hsorted Hprec _]).
  split.
  - intros j iv iv_p Hj Hiv Hid Hiv_p Hdep.
    rewrite elem_of_concat_reverse in Hiv, Hiv_p. by eapply Hprec.
  - apply Forall_fmap, Forall_forall. intros l Hl. split.
    + apply Forall_forall. intros iv Hiv. rewrite elem_of_reverse in Hiv.
      assert (Hin : iv ∈ concat (simulate p jobs (2 * length jobs) 0 (replicate nodes [])))
        by (apply elem_of_concat; eauto).
      specialize (Hpast iv Hin). lia.
    + rewrite Forall_forall in Hsorted.
      apply (StronglySorted_reverse after_older), Hsorted, Hl.
Qed.

(** ** Latest deadline first *)

Lemma topological_cons p order :
  topological order →
  (∀ x, x ∈ p :: order → id x ∉ dependencies p) →
  topological (p :: order).
Proof.
  intros Htopo Hfree a b x j Ha Hb Hdep.
  destruct b as [|b]; cbn in Hb.
  - injection Hb as <-. exfalso. eapply Hfree; [| exact Hdep].
    by eapply list_elem_of_lookup_2.
  - destruct a as [|a]; [lia |]. cbn in Ha.
    pose proof (Htopo a b x j Ha Hb Hdep). lia.
Qed.

Lemma ldf_candidates_elem_of unassigned j :
  j ∈ ldf_candidates unassigned →
  j ∈ unassigned ∧ ¬ has_unassigned_successor unassigned j.
Proof.
  unfold ldf_candidates. rewrite merge_sort_Permutation.
  intros [? ?]%list_elem_of_filter. done.
Qed.

Lemma ldf_assign_invariant jobs rounds unassigned order :
  ldf_invariant jobs unassigned order →
  ∃ unassigned', ldf_invariant jobs unassigned' (ldf_assign rounds unassigned order).
Proof.
  revert unassigned order.
  induction rounds as [|rounds IH]; intros U O Hinv; cbn; [by exists U |].
  destruct (ldf_candidates U) as [|p rest] eqn:Hcand; [by exists U |].
  assert (Hp : p ∈ ldf_candidates U) by (rewrite Hcand; apply list_elem_of_here).
  apply ldf_candidates_elem_of in Hp as [HpU Hsink].
  unfold has_unassigned_successor in Hsink. rewrite Exists_exists in Hsink.
  destruct Hinv as [Htopo Hsucc HU HO Hfresh Hnd].
  apply IH. split.
  - apply topological_cons; [done |].
    intros x [-> | Hx]%elem_of_cons Hdep; [by apply Hsink; exists p |].
    by eapply Hsucc.
  - intros x k [-> | Hx]%elem_of_cons [_ Hk]%list_elem_of_filter Hdep.
    + apply Hsink. by exists k.
    + by eapply Hsucc.
  - intros k [_ Hk]%list_elem_of_filter. by apply HU.
  - intros x [-> | Hx]%elem_of_cons; [by apply HU | by apply HO].
  - intros x k [-> | Hx]%elem_of_cons [Hne Hk]%list_elem_of_filter; [done |].
    by apply Hfresh.
  - unfold ids. rewrite fmap_cons. apply NoDup_cons. split; [| done].
    intros (x & Hid & Hx)%list_elem_of_fmap. by eapply Hfresh.
Qed.

Lemma ldf_order_invariant jobs :
  topological (ldf_order jobs) ∧ ldf_order jobs ⊆ jobs ∧ NoDup (ids (ldf_order jobs)).
Proof.
  destruct (ldf_assign_invariant jobs (length jobs) jobs []) as (U & [? _ _ ? _ ?]).
  - split.
    + intros a b p j Ha. done.
    + intros x k Hx. by apply elem_of_nil in Hx.
    + done.
    + intros x Hx. by apply elem_of_nil in Hx.
    + intros x k Hx. by apply elem_of_nil in Hx.
    + constructor.
  - done.
Qed.

Lemma latest_base base l : base ≤ latest base l.
Proof. unfold latest. induction l as [|x l IH]; cbn; lia. Qed.

Lemma latest_elem_of base l x : x ∈ l → x ≤ latest base l.
Proof.
  unfold latest. induction l as [|y l IH]; [by intros ?%elem_of_nil |].
  intros [-> | Hx]%elem_of_cons; cbn; [lia |]. specialize (IH Hx). lia.
Qed.

Lemma run_in_order_ids order previous past :
  job_id <$> run_in_order order previous past = ids order.
Proof.
  revert previous past. induction order as [|j order IH]; intros previous past; [done |].
  cbn. f_equal. apply IH.
Qed.

Lemma run_in_order_ordered order previous past :
  Forall (λ j, 0 < execution_time j) order →
  ordered_intervals (run_in_order order previous past)
  ∧ ∀ iv f, iv ∈ run_in_order order previous past → previous = Some f →
            f ≤ start_time iv.
Proof.
  intros Hexec. revert previous past.
  induction Hexec as [|j order Hj _ IH]; intros previous past.
  - split; [split; constructor | by intros iv f ?%elem_of_nil].
  - cbn. set (start := latest _ _).
    destruct (IH (Some (start + execution_time j))
                 (mkInterval (id j) start (start + execution_time j) :: past))
      as [[Hlen Hsorted] Hafter].
    assert (Hprev : ∀ f, previous = Some f → f ≤ start).
    { intros f ->. apply latest_elem_of. cbn. apply list_elem_of_here. }
    split; [split |].
    + constructor; [cbn; lia | done].
    + constructor; [done |]. apply Forall_forall. intros iv Hiv. cbn. eauto.
    + intros iv f [-> | Hiv]%elem_of_cons Hf; cbn; [by apply Hprev |].
      specialize (Hafter iv _ Hiv eq_refl). specialize (Hprev f Hf). lia.
Qed.

Lemma ldf_single_node_respects jobs :
  NoDup (ids jobs) →
  Forall (λ j, 0 < execution_time j) jobs →
  precedence_respected jobs [run_in_order (ldf_order jobs) None []]
  ∧ Forall ordered_intervals [run_in_order (ldf_order jobs) None []].
Proof.
  intros Hids Hexec.
  destruct (ldf_order_invariant jobs) as (Htopo & Hsub & Hnd).
  assert (Hexec' : Forall (λ j, 0 < execution_time j) (ldf_order jobs)).
  { rewrite Forall_forall in Hexec |- *. intros j Hj. by apply Hexec, Hsub. }
  destruct (run_in_order_ordered (ldf_order jobs) None [] Hexec') as [Hord _].
  split; [| by constructor].
  assert (Hjob : ∀ n iv, run_in_order (ldf_order jobs) None [] !! n = Some iv →
            ∃ j, ldf_order jobs !! n = Some j ∧ id j = job_id iv).
  { intros n iv Hn.
    assert (Hid : (job_id <$> run_in_order (ldf_order jobs) None []) !! n
                  = Some (job_id iv)) by (by rewrite list_lookup_fmap, Hn).
    rewrite run_in_order_ids in Hid. unfold ids in Hid.
    rewrite list_lookup_fmap in Hid.
    destruct (ldf_order jobs !! n) as [j|]; [| done]. injection Hid as Hid. eauto. }
  intros j iv iv_p Hj Hiv Hid Hiv_p Hdep. cbn in Hiv, Hiv_p.
  rewrite app_nil_r in Hiv, Hiv_p.
  apply list_elem_of_lookup in Hiv as [b Hb], Hiv_p as [a Ha].
  destruct (Hjob _ _ Hb) as (j' & Hb' & Hidj'), (Hjob _ _ Ha) as (p & Ha' & Hidp).
  assert (j' = j) as ->.
  { apply (same_id_same_job jobs); [done | | done | congruence].
    by eapply Hsub, list_elem_of_lookup_2. }
  assert (Hab : (a < b)%nat) by (eapply Htopo; [done.. | by rewrite Hidp]).
  destruct Hord as [_ Hsorted].
  by eapply (StronglySorted_lookup _ _ a b iv_p iv Hsorted).
Qed.

(** ** Determinism of the priority order *)

#[local] Instance runs_before_total key : Total (runs_before key).
Proof. intros a b. unfold runs_before. lia. Qed.

#[local] Instance runs_before_trans key : Transitive (runs_before key).
Proof. intros a b c. unfold runs_before. lia. Qed.

Lemma runs_before_antisym key a b :
  runs_before key a b → runs_before key b a → id a = id b.
Proof. unfold runs_before. lia. Qed.

(** Sorting a duplicate-free job list by urgency and id gives the same
    list however the jobs were listed. *)
Lemma merge_sort_runs_before_perm key (l l' : list Job) :
  NoDup (ids l) → l ≡ₚ l' →
  merge_sort (runs_before key) l = merge_sort (runs_before key) l'.
Proof.
  intros Hnd Hperm.
  apply (Sorted_unique_strong (runs_before key)).
  - intros a b Ha Hb Hab Hba.
    rewrite merge_sort_Permutation in Ha, Hb. rewrite <- Hperm in Hb.
    eapply same_id_same_job; eauto using runs_before_antisym.
  - apply Sorted_merge_sort, _.
  - apply Sorted_merge_sort, _.
  - by rewrite !merge_sort_Permutation.
Qed.

Lemma has_unassigned_successor_perm (U U' : list Job) j :
  U ≡ₚ U' → has_unassigned_successor U j ↔ has_unassigned_successor U' j.
Proof.
  intros Hperm. unfold has_unassigned_successor. rewrite !Exists_exists.
  by setoid_rewrite Hperm.
Qed.

Lemma NoDup_ids_filter (P : Job → Prop) `{!∀ j, Decision (P j)} (l : list Job) :
  NoDup (ids l) → NoDup (ids (filter P l)).
Proof.
  unfold ids. induction l as [|j l IH]; [done |].
  rewrite fmap_cons, NoDup_cons. intros [Hj Hnd].
  rewrite filter_cons. case_decide; [| by apply IH].
  rewrite fmap_cons, NoDup_cons. split; [| by apply IH].
  intros (x & Hid & Hx%list_elem_of_filter)%list_elem_of_fmap.
  apply Hj. apply list_elem_of_fmap. exists x. by destruct Hx.
Qed.

Lemma ldf_candidates_perm (U U' : list Job) :
  NoDup (ids U) → U ≡ₚ U' → ldf_candidates U = ldf_candidates U'.
Proof.
  intros Hnd Hperm. unfold ldf_candidates.
  assert (Hfilter :
    filter (λ j, ¬ has_unassigned_successor U' j) U'
    = filter (λ j, ¬ has_unassigned_successor U j) U').
  { apply list_filter_iff. intros j. by rewrite (has_unassigned_successor_perm U U'). }
  rewrite Hfilter.
  apply merge_sort_runs_before_perm; [by apply NoDup_ids_filter | by rewrite Hperm].
Qed.

Lemma ldf_assign_perm rounds (U U' order : list Job) :
  NoDup (ids U) → U ≡ₚ U' → ldf_assign rounds U order = ldf_assign rounds U' order.
Proof.
  revert U U' order. induction rounds as [|rounds IH]; intros U U' order Hnd Hperm; [done |].
  cbn. rewrite <- (ldf_candidates_perm U U' Hnd Hperm).
  destruct (ldf_candidates U) as [|j rest]; [done |].
  apply IH; [by apply NoDup_ids_filter | by rewrite Hperm].
Qed.

Lemma ldf_order_perm (jobs jobs' : list Job) :
  NoDup (ids jobs) → jobs ≡ₚ jobs' → ldf_order jobs = ldf_order jobs'.
Proof.
  intros Hnd Hperm. unfold ldf_order. rewrite <- (Permutation_length Hperm).
  by apply ldf_assign_perm.
Qed.

Lemma validate_jobs_valid jobs m :
  validate_jobs jobs = inr m →
  m = Validated jobs
  ∧ peel (length jobs) jobs = []
  ∧ Forall (λ j, dependencies j ⊆ list_to_set (ids jobs)) jobs
  ∧ Forall (λ j, 0 < execution_time j ∧ arrival j ≤ deadline j) jobs.
Proof.
  unfold validate_jobs. case_decide as Hpeel; [| done].
  case_decide as Hunknown; [done |]. case_decide as Htiming; [done |].
  intros [= <-]. repeat split; [done | |].
  - apply Forall_forall. intros j Hj.
    destruct (decide (dependencies j ⊆ list_to_set (ids jobs))) as [? | Hno]; [done |].
    destruct Hunknown. apply Exists_exists. by exists j.
  - apply Forall_forall. intros j Hj.
    destruct (decide (invalid_timing j)) as [Hbad | Hok].
    + destruct Htiming. apply Exists_exists. by exists j.
    + unfold invalid_timing in Hok. lia.
Qed.

(** ** Every job is run to completion *)

Lemma elem_of_omap_imap {B} (g : nat * list Interval → option B)
    (tl : list (list Interval)) b :
  b ∈ omap g (imap pair tl) ↔ ∃ k l, tl !! k = Some l ∧ g (k, l) = Some b.
Proof.
  rewrite list_elem_of_omap. split.
  - intros ([k l] & (k' & l' & [= -> ->] & Hk)%elem_of_lookup_imap & Hg). eauto.
  - intros (k & l & Hk & Hg). exists (k, l). split; [| done].
    apply elem_of_lookup_imap. eauto.
Qed.

Lemma omap_imap_NoDup {B} (g : nat * list Interval → option B) (key : B → nat)
    (tl : list (list Interval)) :
  (∀ k l b, g (k, l) = Some b → key b = k) →
  NoDup (key <$> omap g (imap pair tl)).
Proof.
  intros Hkey. induction tl as [|l tl IH] using rev_ind; [constructor |].
  rewrite imap_app, omap_app, fmap_app. apply NoDup_app. split; [done |]. split.
  - intros n (b & -> & Hb)%list_elem_of_fmap Hlast.
    apply elem_of_omap_imap in Hb as (k & l' & Hk & Hg).
    apply Hkey in Hg. apply lookup_lt_Some in Hk.
    cbn in Hlast.
    destruct (g (length tl + 0, l))%nat as [b'|] eqn:Hg'; [| by apply elem_of_nil in Hlast].
    apply list_elem_of_singleton in Hlast. apply Hkey in Hg'. lia.
  - cbn. destruct (g _) as [b|]; cbn; [apply NoDup_singleton | constructor].
Qed.

Lemma zip_fst_NoDup {A B} (a : list A) (b : list B) : NoDup a → NoDup (zip a b).*1.
Proof.
  intros Ha. revert b. induction Ha as [|x a Hx _ IH]; intros [|y b]; cbn; try constructor.
  - intros ([x' y'] & Hxp & Hp)%list_elem_of_fmap. cbn in Hxp. subst x'.
    by apply elem_of_zip_l in Hp.
  - apply IH.
Qed.

Lemma elem_of_stays sel tl t k j :
  (k, j) ∈ stays sel tl t ↔ ∃ l, tl !! k = Some l ∧ stays_on sel t l = Some j.
Proof.
  unfold stays. rewrite elem_of_omap_imap. split.
  - intros (k' & l & Hk & Hg). destruct (stays_on sel t l) as [j'|] eqn:Hon; [| done].
    injection Hg as -> ->. eauto.
  - intros (l & Hk & Hon). exists k, l. by rewrite Hon.
Qed.

Lemma elem_of_free_nodes sel tl t k :
  k ∈ free_nodes sel tl t ↔ ∃ l, tl !! k = Some l ∧ stays_on sel t l = None.
Proof.
  unfold free_nodes. rewrite merge_sort_Permutation, elem_of_omap_imap. split.
  - intros (k' & l & Hk & Hg). destruct (stays_on sel t l) as [j'|] eqn:Hon; [done |].
    injection Hg as ->. eauto.
  - intros (l & Hk & Hon). exists k, l. by rewrite Hon.
Qed.

Lemma free_nodes_NoDup sel tl t : NoDup (free_nodes sel tl t).
Proof.
  unfold free_nodes. rewrite merge_sort_Permutation.
  rewrite <- (list_fmap_id (omap _ _)). apply (omap_imap_NoDup _ Datatypes.id).
  intros k l b Hg. destruct (stays_on sel t l); [done |]. by injection Hg as ->.
Qed.

Lemma assignment_nodes p jobs tl t :
  NoDup (assignment p jobs tl t).*1
  ∧ ∀ k j, (k, j) ∈ assignment p jobs tl t → (k < length tl)%nat.
Proof.
  unfold assignment. set (sel := selected p jobs tl t). split.
  - rewrite fmap_app. apply NoDup_app. split; [| split].
    + unfold stays. apply omap_imap_NoDup.
      intros k l [k' j] Hg. destruct (stays_on sel t l); [| done]. by injection Hg as -> _.
    + intros k (a & -> & Ha)%list_elem_of_fmap (b & Hk & Hb)%list_elem_of_fmap.
      destruct a as [k j], b as [k' j']. cbn in Hk. subst k'.
      apply elem_of_stays in Ha as (l & Hl & Hon).
      apply elem_of_zip_l, elem_of_free_nodes in Hb as (l' & Hl' & Hoff). congruence.
    + apply zip_fst_NoDup, free_nodes_NoDup.
  - intros k j [Hstay | Hnew]%elem_of_app.
    + apply elem_of_stays in Hstay as (l & Hl & _). by eapply lookup_lt_Some.
    + apply elem_of_zip_l, elem_of_free_nodes in Hnew as (l & Hl & _).
      by eapply lookup_lt_Some.
Qed.

Lemma assigned_to_Some asg k j :
  NoDup asg.*1 → (k, j) ∈ asg → assigned_to asg k = Some j.
Proof.
  induction asg as [|[k' j'] asg IH]; [by intros _ ?%elem_of_nil |].
  rewrite fmap_cons, NoDup_cons. cbn. intros [Hk' Hnd] [[= -> ->] | Hin]%elem_of_cons.
  - by rewrite decide_True.
  - rewrite decide_False; [by apply IH |].
    intros ->. apply Hk'. apply list_elem_of_fmap. by exists (k, j).
Qed.

Lemma run_time_concat_grow i δ (tl tl' : list (list Interval)) k l l' :
  Forall2 (λ l l', run_time i l ≤ run_time i l') tl tl' →
  tl !! k = Some l → tl' !! k = Some l' →
  run_time i l + δ ≤ run_time i l' →
  run_time i (concat tl) + δ ≤ run_time i (concat tl').
Proof.
  intros Hmono. revert k.
  induction Hmono as [|l0 l0' tl tl' Hl0 Hrest IH]; intros k Hk Hk' Hgrow; [done |].
  cbn [concat]. rewrite !run_time_app. destruct k as [|k]; cbn in Hk, Hk'.
  - injection Hk as ->. injection Hk' as ->.
    assert (run_time i (concat tl) ≤ run_time i (concat tl')); [| lia].
    clear -Hrest. induction Hrest as [|a a' tl tl' Ha _ IH]; [done |].
    cbn [concat]. rewrite !run_time_app. lia.
  - specialize (IH k Hk Hk' Hgrow). lia.
Qed.

Lemma node_step_run_time asg t δ l l' i :
  0 < δ → node_step asg t δ l l' → run_time i l ≤ run_time i l'.
Proof.
  intros Hδ [-> | (k & j & _ & ->)]; [done |].
  rewrite run_time_extend. case_decide; lia.
Qed.

(** A job that is assigned to a node runs there until the next event. *)
Lemma advance_executes asg t δ tl k j :
  0 < δ → NoDup asg.*1 → (k, j) ∈ asg → (k < length tl)%nat →
  executed tl (id j) + δ ≤ executed (advance asg t δ tl) (id j).
Proof.
  intros Hδ Hnd Hkj Hk. unfold executed.
  destruct (lookup_lt_is_Some_2 tl k Hk) as [l Hl].
  eapply (run_time_concat_grow _ _ _ _ k l (extend (id j) t δ l)); [| done | |].
  - eapply Forall2_impl; [apply advance_node_step |].
    intros a a'. by apply node_step_run_time.
  - unfold advance. rewrite list_lookup_imap, Hl. cbn.
    by rewrite (assigned_to_Some asg k j).
  - rewrite run_time_extend, decide_True by done. lia.
Qed.

Lemma blocked_mono S pending j : S ⊆ pending → blocked S j → blocked pending j.
Proof.
  unfold blocked. rewrite !Exists_exists. intros Hsub (p & Hp & Hdep). eauto.
Qed.

(** Jobs that all wait for one another survive every round of peeling. *)
Lemma peel_keeps_blocked (S : list Job) rounds pending :
  Forall (blocked S) S → S ⊆ pending → S ⊆ peel rounds pending.
Proof.
  intros Hblocked. revert pending.
  induction rounds as [|rounds IH]; intros pending Hsub; [done |].
  cbn. apply IH. intros j Hj. apply list_elem_of_filter. split; [| by apply Hsub].
  rewrite Forall_forall in Hblocked. eauto using blocked_mono.
Qed.

(** In a job set that passes the cycle check, every non-empty set of jobs
    has a job that waits for none of the others. *)
Lemma acyclic_has_unblocked jobs (S : list Job) :
  peel (length jobs) jobs = [] → S ⊆ jobs → S ≠ [] →
  ∃ j, j ∈ S ∧ ¬ blocked S j.
Proof.
  intros Hpeel Hsub Hne.
  destruct (decide (Forall (blocked S) S)) as [Hall | Hsome].
  - pose proof (peel_keeps_blocked S (length jobs) jobs Hall Hsub) as Hkeep.
    rewrite Hpeel in Hkeep. destruct S as [|j S]; [done |].
    specialize (Hkeep j (list_elem_of_here _ _)). by apply elem_of_nil in Hkeep.
  - apply not_Forall_Exists in Hsome; [| apply _].
    apply Exists_exists in Hsome as (j & Hj & Hfree). eauto.
Qed.

Lemma filter_length_mono {A} (P Q : A → Prop)
    `{!∀ x, Decision (P x)} `{!∀ x, Decision (Q x)} (l : list A) :
  (∀ x, x ∈ l → Q x → P x) → (length (filter Q l) ≤ length (filter P l))%nat.
Proof.
  induction l as [|x l IH]; intros Himpl; [done |].
  assert (IH' : (length (filter Q l) ≤ length (filter P l))%nat).
  { apply IH. intros y Hy. apply Himpl. by apply list_elem_of_further. }
  rewrite !filter_cons.
  destruct (decide (Q x)) as [HQ | HQ].
  - rewrite decide_True by (apply Himpl; [apply list_elem_of_here | done]). cbn. lia.
  - case_decide; cbn; lia.
Qed.

Lemma filter_length_strict {A} (P Q : A → Prop)
    `{!∀ x, Decision (P x)} `{!∀ x, Decision (Q x)} (l : list A) x0 :
  (∀ x, x ∈ l → Q x → P x) → x0 ∈ l → P x0 → ¬ Q x0 →
  (length (filter Q l) < length (filter P l))%nat.
Proof.
  induction l as [|x l IH]; intros Himpl Hx0 HP HQ; [by apply elem_of_nil in Hx0 |].
  assert (Himpl' : ∀ y, y ∈ l → Q y → P y).
  { intros y Hy. apply Himpl. by apply list_elem_of_further. }
  rewrite !filter_cons. apply elem_of_cons in Hx0 as [<- | Hx0].
  - destruct (decide (Q x0)); [done |]. destruct (decide (P x0)); [| done]. cbn.
    pose proof (filter_length_mono P Q l Himpl'). lia.
  - specialize (IH Himpl' Hx0 HP HQ).
    destruct (decide (Q x)) as [HQx | HQx].
    + rewrite decide_True by (apply Himpl; [apply list_elem_of_here | done]). cbn. lia.
    + case_decide; cbn; lia.
Qed.

Lemma step_decreases p jobs t tl δ :
  next_event jobs tl t (assignment p jobs tl t) = Some δ →
  (pending_events jobs (t + δ) (advance (assignment p jobs tl t) t δ tl)
   < pending_events jobs t tl)%nat.
Proof.
  intros Hnext. pose proof (next_event_positive _ _ _ _ _ Hnext) as Hδ.
  set (asg := assignment p jobs tl t) in *. set (tl' := advance asg t δ tl).
  assert (Hfin : ∀ j, finished tl j → finished tl' j).
  { intros j. eapply node_step_finished; [done | apply advance_node_step]. }
  assert (Hunf : ∀ j, j ∈ jobs → ¬ finished tl' j → ¬ finished tl j) by naive_solver.
  assert (Hfut : ∀ j, j ∈ jobs → t + δ < arrival j → t < arrival j) by (intros; lia).
  pose proof (filter_length_mono _ _ jobs Hunf) as Hle1.
  pose proof (filter_length_mono _ _ jobs Hfut) as Hle2.
  unfold pending_events.
  apply min_list_elem_of, elem_of_app in Hnext as [Hrun | Harr].
  - apply list_elem_of_fmap in Hrun as ([k j] & Hrem & Hkj). cbn in Hrem.
    destruct (assignment_ready _ _ _ _ _ _ Hkj) as [Hj (_ & Hunfinished & _)].
    destruct (assignment_nodes p jobs tl t) as [Hnd Hlt].
    pose proof (advance_executes asg t δ tl k j Hδ Hnd Hkj (Hlt _ _ Hkj)) as Hexec.
    assert (Hdone : ¬ ¬ finished tl' j).
    { intros Hno. apply Hno. unfold finished, remaining in *. fold tl' in Hexec. lia. }
    pose proof (filter_length_strict _ _ jobs j Hunf Hj Hunfinished Hdone). lia.
  - apply list_elem_of_fmap in Harr as (j & Harr & Hj).
    apply list_elem_of_filter in Hj as [Hlater Hj].
    assert (Hnow : ¬ t + δ < arrival j) by lia.
    pose proof (filter_length_strict _ _ jobs j Hfut Hj Hlater Hnow). lia.
Qed.

Lemma min_list_None l : min_list l = None → l = [].
Proof. by destruct l. Qed.

(** While a job is ready, some node is given a job. *)
Lemma assignment_nonempty p jobs tl t j :
  (0 < length tl)%nat → j ∈ jobs → ready jobs tl t j → assignment p jobs tl t ≠ [].
Proof.
  intros Hnodes Hj Hready Hnone.
  unfold assignment in Hnone. apply app_eq_nil in Hnone as [Hstays Hzip].
  set (sel := selected p jobs tl t) in *.
  assert (Hsel : ∃ j0, j0 ∈ sel).
  { assert (Hr : j ∈ ranked p jobs tl t).
    { unfold ranked. rewrite merge_sort_Permutation. by apply list_elem_of_filter. }
    subst sel. unfold selected.
    set (r := ranked p jobs tl t) in *.
    assert (Hx : j ∈ (if preemptive p then r
                      else filter (is_running tl t) r ++ filter (λ j, ¬ is_running tl t j) r)).
    { destruct (preemptive p); [done |].
      rewrite elem_of_app, !list_elem_of_filter.
      destruct (decide (is_running tl t j)); auto. }
    destruct (if preemptive p then _ else _) as [|j0 rest]; [by apply elem_of_nil in Hx |].
    exists j0. destruct (length tl); [lia |]. apply list_elem_of_here. }
  destruct Hsel as [j0 Hj0].
  assert (Hfree : ∀ l, l ∈ tl → stays_on sel t l = None).
  { intros l [k Hk]%list_elem_of_lookup.
    destruct (stays_on sel t l) as [j'|] eqn:Hon; [| done].
    assert (Hin : (k, j') ∈ stays sel tl t) by (apply elem_of_stays; eauto).
    rewrite Hstays in Hin. by apply elem_of_nil in Hin. }
  assert (Hnew : j0 ∈ newcomers sel tl t).
  { unfold newcomers. apply list_elem_of_filter. split; [| done].
    unfold is_running. intros (l & Hl & Hcur)%list_elem_of_omap.
    specialize (Hfree l Hl). unfold stays_on in Hfree. rewrite Hcur in Hfree. cbn in Hfree.
    destruct (list_find _ sel) as [?|] eqn:Hfind; [done |].
    apply list_find_None in Hfind. rewrite Forall_forall in Hfind. by apply (Hfind j0). }
  destruct tl as [|l0 tl]; [cbn in Hnodes; lia |].
  assert (Hnode : (0%nat) ∈ free_nodes sel (l0 :: tl) t).
  { apply elem_of_free_nodes. exists l0. split; [done |]. apply Hfree, list_elem_of_here. }
  destruct (free_nodes sel (l0 :: tl) t) as [|k ks]; [by apply elem_of_nil in Hnode |].
  destruct (newcomers sel (l0 :: tl) t) as [|j1 js]; [by apply elem_of_nil in Hnew |].
  done.
Qed.

(** A simulation on a validated job set stops only when every job is
    finished. *)
Lemma stuck_all_finished p jobs t tl :
  peel (length jobs) jobs = [] → (0 < length tl)%nat →
  next_event jobs tl t (assignment p jobs tl t) = None →
  Forall (finished tl) jobs.
Proof.
  intros Hpeel Hnodes Hnone%min_list_None.
  apply app_eq_nil in Hnone as [Hasg%fmap_nil_inv Hfut%fmap_nil_inv].
  set (U := filter (λ j, ¬ finished tl j) jobs).
  destruct (decide (U = [])) as [HU | HU].
  - apply Forall_forall. intros j Hj.
    destruct (decide (finished tl j)) as [? | Hno]; [done |].
    assert (Hin : j ∈ U) by (by apply list_elem_of_filter).
    rewrite HU in Hin. by apply elem_of_nil in Hin.
  - exfalso.
    destruct (acyclic_has_unblocked jobs U Hpeel) as (j & HjU & Hfree); [| done |].
    { intros x [_ ?]%list_elem_of_filter. done. }
    apply list_elem_of_filter in HjU as [Hunfinished Hj].
    apply (assignment_nonempty p jobs tl t j Hnodes Hj); [| done].
    split; [| split; [done |]].
    + destruct (decide (t < arrival j)) as [Hlater | ?]; [| lia].
      assert (Hin : j ∈ filter (λ j, t < arrival j) jobs) by (by apply list_elem_of_filter).
      rewrite Hfut in Hin. by apply elem_of_nil in Hin.
    + apply Forall_forall. intros q Hq Hdep.
      destruct (decide (finished tl q)) as [? | Hno]; [done |].
      destruct Hfree. apply Exists_exists. exists q. split; [| done].
      by apply list_elem_of_filter.
Qed.

Lemma length_advance asg t δ tl : length (advance asg t δ tl) = length tl.
Proof. unfold advance. apply length_imap. Qed.

Lemma simulate_completes p jobs events t tl :
  peel (length jobs) jobs = [] → (0 < length tl)%nat →
  (pending_events jobs t tl ≤ events)%nat →
  Forall (finished (simulate p jobs events t tl)) jobs.
Proof.
  intros Hpeel. revert t tl.
  induction events as [|events IH]; intros t tl Hnodes Hpending; cbn.
  - apply Forall_forall. intros j Hj.
    destruct (decide (finished tl j)) as [? | Hno]; [done |].
    unfold pending_events in Hpending.
    assert (Hin : j ∈ filter (λ j, ¬ finished tl j) jobs) by (by apply list_elem_of_filter).
    destruct (filter (λ j, ¬ finished tl j) jobs); [by apply elem_of_nil in Hin |].
    cbn in Hpending. lia.
  - destruct (next_event _ _ _ _) as [δ|] eqn:Hnext.
    + apply IH; [by rewrite length_advance |].
      pose proof (step_decreases _ _ _ _ _ Hnext). lia.
    + by eapply stuck_all_finished.
Qed.

Lemma run_time_reverse i l : run_time i (reverse l) = run_time i l.
Proof.
  induction l as [|iv l IH]; [done |].
  rewrite reverse_cons, run_time_app, IH, !run_time_cons.
  change (run_time i []) with 0. case_decide; lia.
Qed.

Lemma executed_reverse tl i : executed (reverse <$> tl) i = executed tl i.
Proof.
  unfold executed. induction tl as [|l tl IH]; [done |].
  rewrite fmap_cons. cbn [concat]. by rewrite !run_time_app, run_time_reverse, IH.
Qed.

(** On a validated job set and at least one node, the simulation runs
    every job for its execution time at least, whatever the policy: the
    rounds allowed are enough. *)
Lemma schedule_with_completes p jobs m nodes :
  validate_jobs jobs = inr m → (0 < nodes)%nat →
  Forall (finished (schedule_with p jobs nodes)) jobs.
Proof.
  intros (_ & Hpeel & _)%validate_jobs_valid Hnodes. unfold schedule_with.
  assert (Hsim : Forall (finished (simulate p jobs (2 * length jobs) 0 (replicate nodes [])))
                   jobs).
  { apply simulate_completes; [done | by rewrite length_replicate |].
    unfold pending_events.
    pose proof (length_filter (λ j, ¬ finished (replicate nodes []) j) jobs).
    pose proof (length_filter (λ j, 0 < arrival j) jobs). lia. }
  eapply Forall_impl; [exact Hsim |].
  intros j. unfold finished, remaining. by rewrite executed_reverse.
Qed.

(** In a job set that passes the cycle check, every non-empty set of jobs
    has a job on which none of the others depends. *)
Lemma acyclic_has_sink jobs (S : list Job) :
  peel (length jobs) jobs = [] → S ⊆ jobs → S ≠ [] →
  ∃ j, j ∈ S ∧ ¬ has_unassigned_successor S j.
Proof.
  intros Hpeel. remember (length S) as n eqn:Hn. revert S Hn.
  induction n as [n IH] using lt_wf_ind. intros S -> Hsub Hne.
  destruct (decide (Exists (λ j, ¬ has_unassigned_successor S j) S)) as [Hsink | Hnone].
  { apply Exists_exists in Hsink as (j & ? & ?). eauto. }
  exfalso.
  assert (Hall : ∀ j, j ∈ S → has_unassigned_successor S j).
  { intros j Hj. destruct (decide (has_unassigned_successor S j)) as [? | Hno]; [done |].
    destruct Hnone. apply Exists_exists. eauto. }
  destruct (acyclic_has_unblocked jobs S Hpeel Hsub Hne) as (j0 & Hj0 & Hsource).
  set (S' := filter (λ j, j ≠ j0) S).
  assert (Hless : (length S' < length S)%nat).
  { apply (length_filter_lt _ _ j0); [done | by intros Hneq]. }
  assert (Hsucc : ∀ j, j ∈ S' → has_unassigned_successor S' j).
  { intros j [_ Hj]%list_elem_of_filter.
    specialize (Hall j Hj). unfold has_unassigned_successor in *.
    apply Exists_exists in Hall as (k & Hk & Hdep). apply Exists_exists.
    exists k. split; [| done]. apply list_elem_of_filter. split; [| done].
    intros ->. apply Hsource. apply Exists_exists. eauto. }
  destruct (decide (S' = [])) as [Hempty | Hne'].
  - specialize (Hall j0 Hj0). unfold has_unassigned_successor in Hall.
    apply Exists_exists in Hall as (k & Hk & Hdep).
    destruct (decide (k = j0)) as [-> | Hkj].
    + apply Hsource. apply Exists_exists. eauto.
    + assert (Hin : k ∈ S') by (by apply list_elem_of_filter).
      rewrite Hempty in Hin. by apply elem_of_nil in Hin.
  - destruct (IH (length S') Hless S' eq_refl) as (j & Hj & Hno); [| done |].
    { intros x [_ Hx]%list_elem_of_filter. by apply Hsub. }
    by apply Hno, Hsucc.
Qed.

(** On a validated job set, the priority assignment leaves no job out. *)
Lemma ldf_assign_complete jobs rounds (U order : list Job) :
  NoDup (ids jobs) →
  peel (length jobs) jobs = [] → U ⊆ jobs → (length U ≤ rounds)%nat →
  ∀ j, j ∈ U ∨ j ∈ order → j ∈ ldf_assign rounds U order.
Proof.
  intros Hids Hpeel. revert U order.
  induction rounds as [|rounds IH]; intros U order Hsub Hlen j Hj; cbn.
  - destruct U; [| cbn in Hlen; lia].
    destruct Hj as [Hj | Hj]; [by apply elem_of_nil in Hj | done].
  - destruct (ldf_candidates U) as [|p rest] eqn:Hcand.
    + destruct (decide (U = [])) as [-> | Hne].
      { destruct Hj as [Hj | Hj]; [by apply elem_of_nil in Hj | done]. }
      exfalso. destruct (acyclic_has_sink jobs U Hpeel Hsub Hne) as (q & Hq & Hsink).
      assert (Hin : q ∈ ldf_candidates U).
      { unfold ldf_candidates. rewrite merge_sort_Permutation.
        by apply list_elem_of_filter. }
      rewrite Hcand in Hin. by apply elem_of_nil in Hin.
    + assert (Hp : p ∈ U).
      { assert (Hin : p ∈ ldf_candidates U) by (rewrite Hcand; apply list_elem_of_here).
        by apply ldf_candidates_elem_of in Hin as [? _]. }
      apply IH.
      * intros x [_ Hx]%list_elem_of_filter. by apply Hsub.
      * pose proof (length_filter_lt (λ k, id k ≠ id p) U p Hp) as Hlt.
        assert (length (filter (λ k, id k ≠ id p) U) < length U)%nat; [| lia].
        apply Hlt. by intros Hneq.
      * destruct Hj as [Hj | Hj]; [| right; by apply list_elem_of_further].
        destruct (decide (id j = id p)) as [Hid | Hid].
        -- right. assert (j = p) as ->; [| apply list_elem_of_here].
           apply (same_id_same_job jobs); auto.
        -- left. by apply list_elem_of_filter.
Qed.

Lemma ldf_order_complete jobs :
  NoDup (ids jobs) → peel (length jobs) jobs = [] → ∀ j, j ∈ jobs → j ∈ ldf_order jobs.
Proof.
  intros Hids Hpeel j Hj. unfold ldf_order.
  apply (ldf_assign_complete jobs); auto.
Qed.

Lemma run_time_elem_of iv l :
  Forall (λ iv, start_time iv < finish_time iv) l → iv ∈ l →
  interval_length iv ≤ run_time (job_id iv) l.
Proof.
  induction 1 as [|iv' l Hiv' Hl IH]; [by intros ?%elem_of_nil |].
  assert (Hpos : 0 ≤ run_time (job_id iv) l).
  { clear -Hl. induction Hl as [|x l Hx _ IH]; [done |].
    rewrite run_time_cons. unfold interval_length. case_decide; lia. }
  rewrite run_time_cons. intros [-> | Hin]%elem_of_cons.
  - rewrite decide_True by done. lia.
  - specialize (IH Hin). unfold interval_length in *. case_decide; lia.
Qed.

Lemma run_in_order_runs order previous past j :
  j ∈ order →
  ∃ iv, iv ∈ run_in_order order previous past
        ∧ job_id iv = id j ∧ interval_length iv = execution_time j.
Proof.
  revert previous past. induction order as [|q order IH]; intros previous past Hin;
    [by apply elem_of_nil in Hin |].
  apply elem_of_cons in Hin as [<- | Hin]; cbn.
  - eexists. split; [apply list_elem_of_here |]. unfold interval_length. cbn.
    split; [done | lia].
  - match goal with
    | |- ∃ iv, iv ∈ _ :: run_in_order _ ?prev ?pst ∧ _ =>
        destruct (IH prev pst Hin) as (iv & Hiv & ? & ?)
    end.
    exists iv. split; [apply list_elem_of_further, Hiv | done].
Qed.

(** C4 speaks of schedules that exist: on a valid job set and at least one
    node, every scheduler runs every job for its execution time. *)
Lemma every_job_is_run_to_completion
    (jobs : list Job) (m : JobModel) (pf : Platform) (s : Scheduler) :
  NoDup (ids jobs) →
  validate_jobs jobs = inr m →
  (0 < node_count pf)%nat →
  Forall (finished (run s m pf)) jobs.
Proof.
  intros Hids Hvalid Hnodes.
  destruct (validate_jobs_valid _ _ Hvalid) as (-> & Hpeel & _ & Htiming).
  destruct s; unfold run, model_jobs;
    try (by eapply schedule_with_completes; [done | lia]).
  destruct (ldf_order_invariant jobs) as (_ & Hsub & _).
  assert (Hexec : Forall (λ j, 0 < execution_time j) (ldf_order jobs)).
  { rewrite Forall_forall in Htiming |- *. intros j Hj. by apply Htiming, Hsub. }
  destruct (run_in_order_ordered (ldf_order jobs) None [] Hexec) as [[Hlen _] _].
  apply Forall_forall. intros j Hj.
  pose proof (ldf_order_complete jobs Hids Hpeel j Hj) as Hin.
  unfold finished, remaining, executed. cbn [concat]. rewrite app_nil_r.
  destruct (run_in_order_runs (ldf_order jobs) None [] j Hin)
    as (iv & Hiv & Hid & Hlength).
  pose proof (run_time_elem_of iv _ Hlen Hiv) as Hrun. rewrite Hid in Hrun. lia.
Qed.

(** ** Work conservation *)

Lemma imap_run_time_same (f : nat → list Interval → list Interval) i tl :
  (∀ k l, tl !! k = Some l → run_time i (f k l) = run_time i l) →
  run_time i (concat (imap f tl)) = run_time i (concat tl).
Proof.
  revert f. induction tl as [|l tl IH]; intros f Hsame; [done |].
  rewrite imap_cons. cbn [concat]. rewrite !run_time_app.
  rewrite (Hsame 0%nat l eq_refl), (IH (f ∘ S)); [done |].
  intros k l' Hk. by apply (Hsame (S k)).
Qed.

Lemma imap_run_time_le (f : nat → list Interval → list Interval) i δ tl :
  0 ≤ δ →
  (∀ k l, tl !! k = Some l →
          run_time i (f k l) = run_time i l ∨ run_time i (f k l) = run_time i l + δ) →
  (∀ k1 k2 l1 l2, tl !! k1 = Some l1 → tl !! k2 = Some l2 →
                  run_time i (f k1 l1) ≠ run_time i l1 →
                  run_time i (f k2 l2) ≠ run_time i l2 → k1 = k2) →
  run_time i (concat (imap f tl)) = run_time i (concat tl)
  ∨ (run_time i (concat (imap f tl)) ≤ run_time i (concat tl) + δ
     ∧ ∃ k l, tl !! k = Some l ∧ run_time i (f k l) ≠ run_time i l).
Proof.
  intros Hδ. revert f. induction tl as [|l tl IH]; intros f Hstep Hone; [by left |].
  rewrite imap_cons. cbn [concat]. rewrite !run_time_app.
  destruct (decide (run_time i (f 0%nat l) = run_time i l)) as [Hsame | Hgrow].
  - rewrite Hsame. destruct (IH (f ∘ S)) as [Heq | [Hle (k & l' & Hk & Hg)]].
    + intros k l' Hk. by apply (Hstep (S k)).
    + intros k1 k2 l1 l2 Hk1 Hk2 Hg1 Hg2.
      assert (S k1 = S k2) by (by eapply (Hone (S k1) (S k2))). lia.
    + left. lia.
    + right. split; [lia |]. by exists (S k), l'.
  - right. destruct (Hstep 0%nat l eq_refl) as [? | Hhead]; [done |].
    split; [| by exists 0%nat, l].
    rewrite (imap_run_time_same (f ∘ S)); [lia |].
    intros k l' Hk.
    destruct (decide (run_time i ((f ∘ S) k l') = run_time i l')) as [? | Hg]; [done |].
    assert (0%nat = S k) by (by eapply (Hone 0%nat (S k))). lia.
Qed.

Lemma current_extend i t δ l : current (t + δ) (extend i t δ l) = Some i.
Proof.
  unfold extend. destruct l as [|iv l]; [| case_decide]; cbn; by rewrite decide_True.
Qed.

Lemma current_past t δ l :
  0 < δ → (∀ iv, iv ∈ l → finish_time iv ≤ t) → current (t + δ) l = None.
Proof.
  intros Hδ Hpast. destruct l as [|iv l]; [done |]. cbn.
  rewrite decide_False; [done |].
  specialize (Hpast iv (list_elem_of_here _ _)). lia.
Qed.

Lemma stays_on_current sel t l j :
  stays_on sel t l = Some j → current t l = Some (id j) ∧ j ∈ sel.
Proof.
  unfold stays_on. destruct (current t l) as [i|]; [| done]. cbn.
  destruct (list_find _ sel) as [[n j']|] eqn:Hfind; [| done]. cbn. intros [= ->].
  apply list_find_Some in Hfind as (Hn & -> & _).
  split; [done | by eapply list_elem_of_lookup_2].
Qed.

Lemma zip_snd_inj {A B} (a : list A) (b : list B) x1 x2 y :
  NoDup b → (x1, y) ∈ zip a b → (x2, y) ∈ zip a b → x1 = x2.
Proof.
  intros Hb. revert a. induction Hb as [|y0 b Hy0 _ IH]; intros [|x0 a]; cbn;
    try (by intros ?%elem_of_nil).
  intros [H1 | H1]%elem_of_cons [H2 | H2]%elem_of_cons.
  - congruence.
  - injection H1 as _ ->. by apply elem_of_zip_r in H2.
  - injection H2 as _ ->. by apply elem_of_zip_r in H1.
  - by eapply IH.
Qed.

Lemma selected_NoDup p jobs tl t : NoDup (ids jobs) → NoDup (selected p jobs tl t).
Proof.
  intros Hids%NoDup_fmap_1. unfold selected.
  eapply sublist_NoDup; [| apply sublist_take].
  assert (Hr : NoDup (ranked p jobs tl t)).
  { unfold ranked. rewrite merge_sort_Permutation. by apply NoDup_filter. }
  destruct (preemptive p); [done |]. by rewrite filter_app_complement.
Qed.

(** The assignment gives no job to two nodes. *)
Lemma assignment_one_node p jobs tl t k1 k2 j1 j2 :
  NoDup (ids jobs) → one_node_per_job t tl →
  (k1, j1) ∈ assignment p jobs tl t → (k2, j2) ∈ assignment p jobs tl t →
  id j1 = id j2 → k1 = k2.
Proof.
  intros Hids Hone H1 H2 Hid.
  assert (j1 = j2) as <-.
  { apply (same_id_same_job jobs); [done | | | done].
    - by apply assignment_ready in H1 as [? _].
    - by apply assignment_ready in H2 as [? _]. }
  unfold assignment in H1, H2. set (sel := selected p jobs tl t) in *.
  assert (Hmixed : ∀ k k', (k, j1) ∈ stays sel tl t →
            (k', j1) ∈ zip (free_nodes sel tl t) (newcomers sel tl t) → False).
  { intros k k' (l & Hl & [Hcur _]%stays_on_current)%elem_of_stays Hnew%elem_of_zip_r.
    unfold newcomers in Hnew. apply list_elem_of_filter in Hnew as [Hidle _].
    apply Hidle. unfold is_running. apply list_elem_of_omap.
    exists l. split; [by eapply list_elem_of_lookup_2 | done]. }
  apply elem_of_app in H1 as [H1 | H1], H2 as [H2 | H2].
  - apply elem_of_stays in H1 as (l1 & Hl1 & [Hc1 _]%stays_on_current).
    apply elem_of_stays in H2 as (l2 & Hl2 & [Hc2 _]%stays_on_current).
    by eapply Hone.
  - by destruct (Hmixed k1 k2).
  - by destruct (Hmixed k2 k1).
  - eapply zip_snd_inj; [| done..].
    unfold newcomers. by apply NoDup_filter, selected_NoDup.
Qed.

Lemma advance_lookup asg t δ tl k l' :
  advance asg t δ tl !! k = Some l' →
  ∃ l, tl !! k = Some l
       ∧ l' = match assigned_to asg k with
              | Some j => extend (id j) t δ l
              | None => l
              end.
Proof.
  unfold advance. rewrite list_lookup_imap.
  destruct (tl !! k) as [l|]; [| done]. cbn. intros [= <-]. eauto.
Qed.

Lemma accounting_step p jobs t tl δ :
  NoDup (ids jobs) →
  (∀ iv, iv ∈ concat tl → finish_time iv ≤ t) →
  one_node_per_job t tl → within_budget jobs tl →
  next_event jobs tl t (assignment p jobs tl t) = Some δ →
  one_node_per_job (t + δ) (advance (assignment p jobs tl t) t δ tl)
  ∧ within_budget jobs (advance (assignment p jobs tl t) t δ tl).
Proof.
  intros Hids Hpast Hone Hbudget Hnext.
  pose proof (next_event_positive _ _ _ _ _ Hnext) as Hδ.
  set (asg := assignment p jobs tl t) in *.
  assert (Hcur : ∀ k l' i, advance asg t δ tl !! k = Some l' →
            current (t + δ) l' = Some i →
            ∃ j, (k, j) ∈ asg ∧ id j = i).
  { intros k l' i (l & Hl & ->)%advance_lookup Hi.
    destruct (assigned_to asg k) as [j|] eqn:Hk.
    - rewrite current_extend in Hi. injection Hi as <-.
      exists j. split; [by apply assigned_to_elem_of | done].
    - rewrite current_past in Hi; [done.. |].
      intros iv Hiv. apply Hpast, elem_of_concat. exists l.
      split; [by eapply list_elem_of_lookup_2 | done]. }
  split.
  - intros k1 k2 l1 l2 i Hk1 Hk2 Hc1 Hc2.
    destruct (Hcur _ _ _ Hk1 Hc1) as (j1 & H1 & Hi1), (Hcur _ _ _ Hk2 Hc2) as (j2 & H2 & Hi2).
    eapply (assignment_one_node p jobs tl t k1 k2 j1 j2); [done.. | congruence].
  - intros j Hj. unfold remaining, executed, advance.
    set (f := λ (k : nat) (l : list Interval),
                match assigned_to asg k with
                | Some j' => extend (id j') t δ l
                | None => l
                end).
    assert (Hnode : ∀ k l, run_time (id j) (f k l) ≠ run_time (id j) l →
              ∃ j', (k, j') ∈ asg ∧ id j' = id j).
    { intros k l Hgrow. unfold f in Hgrow.
      destruct (assigned_to asg k) as [j'|] eqn:Hk; [| done].
      rewrite run_time_extend in Hgrow. case_decide; [| lia].
      exists j'. split; [by apply assigned_to_elem_of | done]. }
    destruct (imap_run_time_le f (id j) δ tl) as [Heq | [Hle (k & l & Hk & Hgrow)]].
    + lia.
    + intros k l _. unfold f. destruct (assigned_to asg k) as [j'|]; [| by left].
      rewrite run_time_extend. case_decide; [right | left]; lia.
    + intros k1 k2 l1 l2 _ _ (j1 & H1 & Hi1)%Hnode (j2 & H2 & Hi2)%Hnode.
      eapply (assignment_one_node p jobs tl t k1 k2 j1 j2); [done.. | congruence].
    + rewrite Heq. apply (Hbudget j Hj).
    + destruct (Hnode k l Hgrow) as (j' & Hkj' & Hid).
      assert (j' = j) as ->.
      { apply (same_id_same_job jobs); [done | | done..].
        by apply assignment_ready in Hkj' as [? _]. }
      assert (Hmin : δ ≤ remaining tl j).
      { eapply min_list_le; [exact Hnext |]. apply elem_of_app. left.
        apply list_elem_of_fmap. by exists (k, j). }
      unfold remaining, executed in Hmin. lia.
Qed.

Lemma simulate_within_budget p jobs events t tl :
  NoDup (ids jobs) → invariant jobs t tl →
  one_node_per_job t tl → within_budget jobs tl →
  within_budget jobs (simulate p jobs events t tl).
Proof.
  intros Hids. revert t tl.
  induction events as [|events IH]; intros t tl Hinv Hone Hbudget; cbn; [done |].
  destruct (next_event _ _ _ _) as [δ|] eqn:Hnext; [| done].
  destruct (accounting_step p jobs t tl δ Hids) as [Hone' Hbudget']; [| done.. |].
  { intros iv Hiv. by apply (inv_past _ _ _ Hinv). }
  apply IH; [| done..].
  eapply invariant_step; [done.. | | |].
  - by eapply next_event_positive.
  - intros k j. apply assignment_ready.
  - apply advance_node_step.
Qed.

Lemma executed_replicate_nil nodes i : executed (replicate nodes []) i = 0.
Proof. unfold executed. induction nodes as [|n IH]; [done |]. cbn. apply IH. Qed.

(** On a validated job set, the simulation runs no job for longer than its
    execution time. *)
Lemma schedule_with_within_budget p jobs m nodes :
  NoDup (ids jobs) → validate_jobs jobs = inr m →
  within_budget jobs (schedule_with p jobs nodes).
Proof.
  intros Hids (_ & _ & _ & Htiming)%validate_jobs_valid. unfold schedule_with.
  assert (Hsim : within_budget jobs (simulate p jobs (2 * length jobs) 0 (replicate nodes []))).
  { apply simulate_within_budget; [done | apply invariant_initial | |].
    - intros k1 k2 l1 l2 i [-> _]%lookup_replicate. done.
    - intros j Hj. unfold remaining. rewrite executed_replicate_nil.
      rewrite Forall_forall in Htiming. specialize (Htiming j Hj). lia. }
  intros j Hj. specialize (Hsim j Hj). unfold remaining in *.
  by rewrite executed_reverse.
Qed.

Lemma run_time_absent i l : i ∉ job_id <$> l → run_time i l = 0.
Proof.
  induction l as [|iv l IH]; [done |].
  rewrite fmap_cons, not_elem_of_cons, run_time_cons. intros [Hne Hl].
  rewrite decide_False by done. by apply IH.
Qed.

Lemma run_time_unique iv l :
  NoDup (job_id <$> l) → iv ∈ l → run_time (job_id iv) l = interval_length iv.
Proof.
  induction l as [|iv' l IH]; [by intros _ ?%elem_of_nil |].
  rewrite fmap_cons, NoDup_cons, run_time_cons. intros [Hfresh Hnd] [-> | Hin]%elem_of_cons.
  - rewrite decide_True by done. rewrite run_time_absent by done. lia.
  - rewrite decide_False; [by apply IH |].
    intros Heq. apply Hfresh. rewrite Heq. by apply list_elem_of_fmap_2.
Qed.

(** Work is conserved: on a valid job set and at least one node, every
    scheduler runs every job for exactly its execution time. *)
Lemma every_job_runs_for_its_execution_time
    (jobs : list Job) (m : JobModel) (pf : Platform) (s : Scheduler) (j : Job) :
  NoDup (ids jobs) →
  validate_jobs jobs = inr m →
  (0 < node_count pf)%nat →
  j ∈ jobs →
  executed (run s m pf) (id j) = execution_time j.
Proof.
  intros Hids Hvalid Hnodes Hj.
  pose proof (every_job_is_run_to_completion jobs m pf s Hids Hvalid Hnodes) as Hdone.
  rewrite Forall_forall in Hdone. specialize (Hdone j Hj).
  unfold finished, remaining in Hdone.
  destruct (validate_jobs_valid _ _ Hvalid) as (-> & Hpeel & _ & _).
  assert (Hsim : ∀ p nodes, 0 ≤ remaining (schedule_with p jobs nodes) j).
  { intros p nodes. by eapply schedule_with_within_budget. }
  unfold remaining in Hsim.
  destruct s; unfold run, model_jobs in *;
    try (match goal with |- executed (schedule_with ?p _ ?n) _ = _ =>
           specialize (Hsim p n); lia end).
  destruct (ldf_order_invariant jobs) as (_ & _ & Hnd).
  destruct (run_in_order_runs (ldf_order jobs) None [] j
              (ldf_order_complete jobs Hids Hpeel j Hj)) as (iv & Hiv & Hid & Hlength).
  unfold executed. cbn [concat]. rewrite app_nil_r, <- Hid.
  rewrite run_time_unique; [done | | done].
  by rewrite run_in_order_ids.
Qed.

(** ** Main results about the engine *)

(** C4.  For a valid job set (unique ids, accepted by the validator) every
    scheduler, LDF, EDF or LL, on a single node or on several, produces a
    result in which every interval of a job starts when the intervals of all
    its predecessors have finished, and in which the intervals of every
    node are in the order of time and do not overlap. *)
Theorem schedules_respect_precedence_and_order
    (jobs : list Job) (m : JobModel) (pf : Platform) (s : Scheduler) :
  NoDup (ids jobs) →
  validate_jobs jobs = inr m →
  precedence_respected jobs (run s m pf) ∧ Forall ordered_intervals (run s m pf).
Proof.
  intros Hids (-> & _ & _ & Htiming)%validate_jobs_valid.
  destruct s; unfold run, model_jobs; try by apply schedule_with_respects.
  apply ldf_single_node_respects; [done |].
  eapply Forall_impl; [exact Htiming |]. by intros j [? _].
Qed.

(** C6.  EDF on a single node, for the two independent jobs [A] (arrival 0,
    execution time 2, deadline 5) and [B] (arrival 0, execution time 1,
    deadline 2), in either order of presentation: the job set is valid and
    the schedule runs [B] over [0,1] and then [A] over [1,3]. *)
Theorem edf_single_node_runs_B_then_A (pf : Platform) :
  let expected := [ [ mkInterval (id job_B) 0 1; mkInterval (id job_A) 1 3 ] ] in
  validate_jobs [job_A; job_B] = inr (Validated [job_A; job_B])
  ∧ run edf_single_node (Validated [job_A; job_B]) pf = expected
  ∧ run edf_single_node (Validated [job_B; job_A]) pf = expected.
Proof. vm_compute. done. Qed.

(** C7.  A job set whose dependency edges contain a cycle fails validation
    with [CyclicDependency]; the computation ends with that failure whatever
    the algorithms are, so none of them is run and there is no schedule. *)
Theorem cyclic_job_set_is_rejected (jobs : list Job) :
  has_cycle jobs →
  validate_jobs jobs = inl CyclicDependency
  ∧ ∀ algorithms pf, engine_with algorithms jobs pf = inl CyclicDependency.
Proof.
  intros [j Hj].
  assert (Hv : validate_jobs jobs = inl CyclicDependency).
  { unfold validate_jobs. case_decide as Hpeel; [| done].
    exfalso.
    pose proof (peel_keeps_cycles jobs (length jobs) jobs
                  (on_cycle_is_a_job jobs) j Hj) as Hin.
    rewrite Hpeel in Hin. by apply elem_of_nil in Hin. }
  split; [done |]. intros algorithms pf. unfold engine_with. by rewrite Hv.
Qed.

Lemma cyclic_job_set_is_rejected_witness :
  has_cycle cyclic_pair ∧ engine cyclic_pair (mkPlatform 2) = inl CyclicDependency.
Proof.
  assert (Hc : has_cycle cyclic_pair).
  { exists (mkJob 1 2 None 5 0 {[2%nat]}).
    eapply tc_l with (mkJob 2 1 None 2 0 {[1%nat]}); [| apply tc_once].
    all: unfold depends_on, cyclic_pair; cbn; set_solver. }
  split; [done |]. apply (cyclic_job_set_is_rejected cyclic_pair Hc).
Defined.

(** C8.  The LDF priority order is a function of the job set alone: two
    listings of the same jobs, each with its dependency set, get the same
    order and the same single-node LDF schedule.  Hence two runs of the
    route on equal inputs, whose LDF algorithm gives equal answers on equal
    arguments, return equal [ldf_single_node] entries, whatever else the two
    runs differ in. *)
Theorem ldf_is_deterministic :
  (∀ (jobs jobs' : list Job) (pf pf' : Platform),
     NoDup (ids jobs) → jobs ≡ₚ jobs' →
     ldf_order jobs = ldf_order jobs'
     ∧ run ldf_single_node (Validated jobs) pf
       = run ldf_single_node (Validated jobs') pf')
  ∧ (∀ (VErr Exc schema : Type)
       (input_schema output_schema input_schema' output_schema' : schema)
       (validate validate' : Backend.json → schema → option VErr)
       (alg alg' : string → list Backend.json → Exc + Backend.json)
       (data : list (string * Backend.json)) t t' response response',
     alg "ldf_single_node" [Backend.dict_get data "application"]
       = alg' "ldf_single_node" [Backend.dict_get data "application"] →
     Backend.schedule_jobs input_schema output_schema validate alg data
       = (t, inr response) →
     Backend.schedule_jobs input_schema' output_schema' validate' alg' data
       = (t', inr response') →
     Backend.dict_lookup response "ldf_single_node"
       = Backend.dict_lookup response' "ldf_single_node").
Proof.
  split.
  - intros jobs jobs' pf pf' Hids Hperm.
    pose proof (ldf_order_perm jobs jobs' Hids Hperm) as Horder.
    split; [done |]. unfold run, model_jobs. by rewrite Horder.
  - intros VErr Exc schema input_schema output_schema input_schema' output_schema'
      validate validate' alg alg' data t t' response response' Hsame Hrun Hrun'.
    apply Backend.schedule_jobs_returns in Hrun as (r & ? & ? & ? & ? & Hr & _ & _ & _ & _ & ->).
    apply Backend.schedule_jobs_returns in Hrun' as (r' & ? & ? & ? & ? & Hr' & _ & _ & _ & _ & ->).
    cbn. congruence.
Qed.

Lemma ldf_is_deterministic_witness :
  ldf_order sample_jobs = ldf_order (reverse sample_jobs)
  ∧ ∃ t t' response response',
      Backend.demo_route Backend.full_request = (t, inr response)
      ∧ Backend.schedule_jobs Backend.InputSchema Backend.OutputSchema
          Backend.demo_validate Backend.other_alg Backend.full_request
        = (t', inr response')
      ∧ Backend.dict_lookup response "ldf_single_node"
        = Backend.dict_lookup response' "ldf_single_node".
Proof.
  destruct ldf_is_deterministic as [Horder Hroute]. split.
  - apply (Horder sample_jobs (reverse sample_jobs) (mkPlatform 2) (mkPlatform 2)).
    + by apply (bool_decide_unpack _).
    + by rewrite reverse_Permutation.
  - eexists _, _, _, _. split; [reflexivity |]. split; [reflexivity |].
    apply (Hroute _ _ _ Backend.InputSchema Backend.OutputSchema
             Backend.InputSchema Backend.OutputSchema
             Backend.demo_validate Backend.demo_validate
             Backend.demo_alg Backend.other_alg Backend.full_request
             _ _ _ _ eq_refl eq_refl eq_refl).
Defined.

Lemma schedules_respect_precedence_and_order_witness :
  NoDup (ids sample_jobs)
  ∧ validate_jobs sample_jobs = inr (Validated sample_jobs)
  ∧ precedence_respected sample_jobs
      (run ll_multinode_no_delay (Validated sample_jobs) (mkPlatform 2))
  ∧ Forall ordered_intervals
      (run ldf_single_node (Validated sample_jobs) (mkPlatform 2)).
Proof.
  assert (Hids : NoDup (ids sample_jobs)) by (by apply (bool_decide_unpack _)).
  assert (Hvalid : validate_jobs sample_jobs = inr (Validated sample_jobs))
    by (vm_compute; reflexivity).
  repeat split; [done.. | |].
  - apply (schedules_respect_precedence_and_order sample_jobs (Validated sample_jobs)
             (mkPlatform 2) ll_multinode_no_delay Hids Hvalid).
  - apply (schedules_respect_precedence_and_order sample_jobs (Validated sample_jobs)
             (mkPlatform 2) ldf_single_node Hids Hvalid).
Defined.

End Engine.
